(** * fics-agent: the FICS session client and the reconciliation loop

    A shallow embedding of [fics-agent.py]: the [Player] record, the
    [Fics] session client ([who], [disconnect]) and the [FicsAgent] loop
    over its two SQLite tables, followed by the properties of the
    specification that concern them. *)

From Stdlib Require Import Ascii String.
From stdpp Require Import base strings list gmap.

Local Open Scope string_scope.

(** ** Python results: a value or a raised exception *)

Module Py.

(** The exceptions that the modelled code paths can raise. *)
Inductive exn : Type :=
| KeyError (key : string)
| TypeError
| UnicodeDecodeError
| EOFError
| OSError
| IntegrityError
| OperationalError
| KeyboardInterrupt
| SystemExit.

Inductive result (A : Type) : Type :=
| Ok (a : A)
| Raise (e : exn).
Global Arguments Ok {A} a.
Global Arguments Raise {A} e.

Definition bind {A B} (k : A → result B) (r : result A) : result B :=
  match r with
  | Ok a => k a
  | Raise e => Raise e
  end.

Global Instance result_ret : MRet result := @Ok.
Global Instance result_bind : MBind result := @bind.

(** Consuming a lazy [map(f, xs)]: the first raising element stops it. *)
Fixpoint map_iter {A B} (f : A → result B) (xs : list A) : result (list B) :=
  match xs with
  | [] => Ok []
  | x :: xs' => y ← f x; ys ← map_iter f xs'; Ok (y :: ys)
  end.

Definition raises {A} (r : result A) : Prop := ∃ e, r = Raise e.

End Py.
Import Py.

(** ** Text: character classes, [bytes.decode('ascii')], [str.split()] *)

Module Text.

Definition code (c : ascii) : nat := nat_of_ascii c.

(** [[0-9]] *)
Definition is_digit (c : ascii) : bool :=
  (48 <=? code c)%nat && (code c <=? 57)%nat.

(** [[^0-9]] *)
Definition non_digit (c : ascii) : bool := negb (is_digit c).

(** [.] without DOTALL: anything but a line feed. *)
Definition dot (c : ascii) : bool := negb (code c =? 10)%nat.

(** [str.isspace] on a character of the ASCII range. *)
Definition is_space (c : ascii) : bool :=
  ((9 <=? code c)%nat && (code c <=? 13)%nat)
  || ((28 <=? code c)%nat && (code c <=? 32)%nat).

Fixpoint all_chars (P : ascii → bool) (s : string) : bool :=
  match s with
  | EmptyString => true
  | String c s' => P c && all_chars P s'
  end.

(** [bytes.decode('ascii')]: any byte above 127 raises. *)
Definition decode_ascii (bytes : string) : result string :=
  if all_chars (λ c, code c <? 128)%nat bytes then Ok bytes
  else Raise UnicodeDecodeError.

(** [str.split()] with no separator: maximal runs of non-space
    characters, in order; [cur] is the token being read, reversed. *)
Fixpoint split_from (cur : list ascii) (s : string) : list string :=
  match s with
  | EmptyString =>
      match cur with
      | [] => []
      | _ => [string_of_list_ascii (rev cur)]
      end
  | String c s' =>
      if is_space c then
        match cur with
        | [] => split_from [] s'
        | _ => string_of_list_ascii (rev cur) :: split_from [] s'
        end
      else split_from (c :: cur) s'
  end.

Definition split (s : string) : list string := split_from [] s.

End Text.

(** ** A backtracking matcher for the fragment of [re] the agent uses *)

Module Re.

(** One capturing group each: [(cls)] or [(cls+)], greedy. *)
Inductive atom : Type :=
| One (cls : ascii → bool)
| Many1 (cls : ascii → bool).

(** [(cls+)] followed by the continuation [k]: longest run first, then
    give characters back one at a time. *)
Fixpoint many1 (cls : ascii → bool) (k : string → option (list string))
    (s : string) : option (list string) :=
  match s with
  | EmptyString => None
  | String c s' =>
      if cls c then
        match many1 cls k s' with
        | Some (g :: gs) => Some (String c g :: gs)
        | _ =>
            match k s' with
            | Some gs => Some (String c EmptyString :: gs)
            | None => None
            end
        end
      else None
  end.

(** [Pattern.fullmatch]: the groups of the match, or [None]. *)
Fixpoint fullmatch (p : list atom) (s : string) : option (list string) :=
  match p with
  | [] =>
      match s with
      | EmptyString => Some []
      | String _ _ => None
      end
  | One cls :: p' =>
      match s with
      | EmptyString => None
      | String c s' =>
          if cls c then
            match fullmatch p' s' with
            | Some gs => Some (String c EmptyString :: gs)
            | None => None
            end
          else None
      end
  | Many1 cls :: p' => many1 cls (fullmatch p') s
  end.

End Re.

(** ** [class Player] *)

Record Player : Type := mkPlayer {
  rating : string;
  status : string;
  name : string
}.

(** [Player.STATUSES], in the order the dict literal lists it. *)
Definition STATUSES : list (string * string) :=
  [ ("^", "INGAME");
    ("~", "SIMUL_MATCH");
    (":", "NOT_OPEN");
    ("#", "EXAMINING");
    (".", "INACTIVE");
    ("&", "INTOURNAMENT") ].

(** [d[key]] on a dict given by its items. *)
Fixpoint dict_get (d : list (string * string)) (key : string) : result string :=
  match d with
  | [] => Raise (KeyError key)
  | (k, v) :: d' => if decide (k = key) then Ok v else dict_get d' key
  end.

(** [Player.__init__] *)
Definition Player_init (rating status name : string) : result Player :=
  st ← dict_get STATUSES status;
  Ok {| rating := rating; status := st; name := name |}.

(** [Player( *tuple)]: the tuple must have the three positional fields. *)
Definition Player_star (tuple : list string) : result Player :=
  match tuple with
  | [r; s; n] => Player_init r s n
  | _ => Raise TypeError
  end.

(** ** [class Fics] *)

(** The line feed that ends a command. *)
Definition lf : string := String (ascii_of_nat 10) "".

(** [telnetlib.Telnet] as far as the agent drives it.  The agent never
    calls [Telnet.close()], so the socket object is always there; what
    varies is the connection behind it: [Connected]; [PeerClosed], when
    the server has closed its end and nothing has been sent since; or
    [Reset], when something was sent after that and the server's host
    answered with a reset. *)
Inductive sock : Type := Connected | PeerClosed | Reset.

Record Telnet : Type := mkTelnet {
  tn_sock : sock;
  tn_sent : list string
}.

(** [Telnet.write]: [self.sock.sendall(buffer)]; it sends and reads
    nothing.  The first write after the server has closed still returns
    normally, the data being handed to the local network stack; it is
    the write after that which raises ([BrokenPipeError], an
    [OSError]). *)
Definition tn_write (tn : Telnet) (buffer : string) : Telnet * result unit :=
  match tn_sock tn with
  | Connected =>
      ({| tn_sock := Connected; tn_sent := tn_sent tn ++ [buffer] |}, Ok tt)
  | PeerClosed =>
      ({| tn_sock := Reset; tn_sent := tn_sent tn ++ [buffer] |}, Ok tt)
  | Reset => (tn, Raise OSError)
  end.

Module Fics.

(** [WHO_REGEX = re.compile('([0-9]+)([^0-9])(.+)')] *)
Definition WHO_REGEX : list Re.atom :=
  [Re.Many1 Text.is_digit; Re.One Text.non_digit; Re.Many1 Text.dot].

(** [Fics.disconnect] *)
Definition disconnect (tn : Telnet) : Telnet * result unit :=
  tn_write tn ("exit" +:+ lf).

(** The innermost three stages of the pipeline in [who]:
    [map(lambda m: m.groups(), filter(None, map(fullmatch, strings)))]. *)
Definition matches (playerStrings : list string) : list (list string) :=
  omap (Re.fullmatch WHO_REGEX) playerStrings.

(** [map(lambda tuple: Player( *tuple), ...)], consumed left to right. *)
Definition parse (playerStrings : list string) : result (list Player) :=
  map_iter Player_star (matches playerStrings).

(** [frozenset] of objects that define neither [__eq__] nor [__hash__]:
    membership is by identity.  Every [Player(...)] call yields a new
    object; [alloc] numbers them in creation order and the set is keyed
    by that identity. *)
Definition alloc (players : list Player) : list (nat * Player) :=
  imap (λ i p, (i, p)) players.

Definition frozenset (objs : list (nat * Player)) : gmap nat Player :=
  list_to_map objs.

(** What the two [read_until] calls of one [who] return or raise. *)
Record io : Type := mkIo {
  io_reply : result string;
  io_prompt : result string
}.

(** [Fics.who] *)
Definition who (tn : Telnet) (i : io)
    : Telnet * result (gmap nat Player) :=
  let '(tn', w) := tn_write tn ("who" +:+ lf) in
  (tn',
   _ ← w;
   bytes ← io_reply i;
   text ← Text.decode_ascii bytes;
   let playerStrings := Text.split text in
   _ ← io_prompt i;
   players ← parse playerStrings;
   Ok (frozenset (alloc players))).

End Fics.

(** ** Iteration order of Python sets

    The order in which a [set] or [frozenset] yields its elements is not
    fixed by the language; the agent iterates the same [frozenset] twice
    and the set of new names once.  An order is any enumeration of the
    elements. *)

Class IterOrder : Type := {
  iter_names : gset string → list string;
  iter_names_perm : ∀ s, iter_names s ≡ₚ elements s;
  iter_players : gmap nat Player → list Player;
  iter_players_perm : ∀ m, iter_players m ≡ₚ (map_to_list m).*2
}.

#[refine] Global Instance key_order : IterOrder := {|
  iter_names := elements;
  iter_players m := (map_to_list m).*2
|}.
Proof. all: reflexivity. Defined.

(** ** The store: the two tables of [setupDB] *)

Module Sql.

(** [players(id INTEGER PRIMARY KEY AUTOINCREMENT, name TEXT NOT NULL UNIQUE)] *)
Record PlayerRow : Type := mkPlayerRow {
  p_id : nat;
  p_name : string
}.

(** What the column [rating INT] holds.  The agent binds the rating as
    text and the column's integer affinity converts it on insert: a
    string of digits becomes an INTEGER, its value without the leading
    zeros, when that fits a signed 64-bit integer, and a REAL (the
    floating-point value of the number) when it does not.  [Other] is
    any text that is no string of digits, as the affinity treats it;
    [who] never binds one. *)
Inductive rating_value : Type :=
| Integer (n : N)
| Real (n : N)
| Other (text : string).

(** The number a string of digits writes. *)
Definition digits_value (s : string) : N :=
  fold_left (λ n c, (10 * n + N.of_nat (Text.code c - 48))%N) (list_ascii_of_string s) 0%N.

(** The largest signed 64-bit integer. *)
Definition INT64_MAX : N := 9223372036854775807%N.

(** Integer affinity applied to a bound text. *)
Definition int_affinity (s : string) : rating_value :=
  match s with
  | EmptyString => Other s
  | String _ _ =>
      if Text.all_chars Text.is_digit s then
        if (digits_value s <=? INT64_MAX)%N then Integer (digits_value s)
        else Real (digits_value s)
      else Other s
  end.

(** [observations(id, time, playerid, rating, status)]; [time] is
    [CURRENT_TIMESTAMP], the clock as the inserting statement reads it. *)
Record ObservationRow : Type := mkObservationRow {
  o_id : nat;
  o_time : nat;
  o_playerid : nat;
  o_rating : rating_value;
  o_status : string
}.

(** Rows in insertion order, with the AUTOINCREMENT counters. *)
Record DB : Type := mkDB {
  players : list PlayerRow;
  players_seq : nat;
  observations : list ObservationRow;
  observations_seq : nat
}.

Definition empty : DB :=
  {| players := []; players_seq := 0; observations := []; observations_seq := 0 |}.

(** [SELECT name FROM players] *)
Definition select_names (db : DB) : list string := p_name <$> players db.

(** [INSERT INTO players (name) VALUES (?)]: the UNIQUE constraint on
    [name] rejects a name that a row already carries. *)
Definition insert_player (n : string) (db : DB) : result DB :=
  if decide (n ∈ select_names db) then Raise IntegrityError
  else
    Ok {| players := players db ++ [{| p_id := S (players_seq db); p_name := n |}];
          players_seq := S (players_seq db);
          observations := observations db;
          observations_seq := observations_seq db |}.

(** [SELECT id, :rating, :status FROM players WHERE name = :name] *)
Definition select_ids (n : string) (db : DB) : list nat :=
  p_id <$> filter (λ r, p_name r = n) (players db).

Definition add_observation (now : nat) (p : Player) (db : DB) (pid : nat) : DB :=
  {| players := players db;
     players_seq := players_seq db;
     observations := observations db ++
       [{| o_id := S (observations_seq db); o_time := now; o_playerid := pid;
           o_rating := int_affinity (rating p); o_status := status p |}];
     observations_seq := S (observations_seq db) |}.

(** [INSERT INTO observations (playerid, rating, status) SELECT ...]:
    one row per selected player row, all with the clock reading [now]
    of this execution; an empty selection is no error. *)
Definition insert_observation (now : nat) (p : Player) (db : DB) : result DB :=
  Ok (foldl (add_observation now p) db (select_ids (name p) db)).

(** Another process committing player names of its own; a name that is
    already there is refused to it as well. *)
Definition other_writer (ns : list string) (db : DB) : DB :=
  foldl (λ d n, match insert_player n d with Ok d' => d' | Raise _ => d end) db ns.

(** The UNIQUE constraint as a property of the table. *)
Definition unique_names (db : DB) : Prop := NoDup (select_names db).

(** ** A connection: the committed store, the open transaction's view,
    and the number of store operations attempted so far. *)
Record Conn : Type := mkConn {
  committed : DB;
  working : DB;
  ops : nat
}.

Definition open (db : DB) : Conn := {| committed := db; working := db; ops := 0 |}.

(** Store code threads the connection and may raise; the connection
    survives the exception. *)
Definition Store (A : Type) : Type := Conn → Conn * result A.

Definition sret {A} (a : A) : Store A := λ c, (c, Ok a).

Definition sbind {A B} (m : Store A) (k : A → Store B) : Store B :=
  λ c, match m c with
       | (c', Ok a) => k a c'
       | (c', Raise e) => (c', Raise e)
       end.

Section Faults.

(** [fault k = Some e]: the [k]-th store operation of the cycle
    raises [e] (an I/O error, a busy database, an interrupt). *)
Variable fault : nat → option exn.

Definition tick (c : Conn) : Conn :=
  {| committed := committed c; working := working c; ops := S (ops c) |}.

(** A reading operation. *)
Definition query {A} (f : DB → A) : Store A :=
  λ c, match fault (ops c) with
       | Some e => (tick c, Raise e)
       | None => (tick c, Ok (f (working c)))
       end.

(** One execution of a writing statement inside the transaction. *)
Definition execute (stmt : DB → result DB) : Store unit :=
  λ c, match fault (ops c) with
       | Some e => (tick c, Raise e)
       | None =>
           match stmt (working c) with
           | Ok db => ({| committed := committed c; working := db; ops := S (ops c) |}, Ok tt)
           | Raise e => (tick c, Raise e)
           end
       end.

(** [cur.executemany(sql, params)]: the statement once per parameter. *)
Fixpoint executemany {A} (stmt : A → DB → result DB) (params : list A) : Store unit :=
  match params with
  | [] => sret tt
  | a :: params' => sbind (execute (stmt a)) (λ _, executemany stmt params')
  end.

(** [cur.executemany(sql, params)] of a statement that reads
    [CURRENT_TIMESTAMP]: every execution reads the clock anew, [clock k]
    being its reading at the [k]-th store operation. *)
Fixpoint executemany_at {A} (clock : nat → nat) (stmt : nat → A → DB → result DB)
    (params : list A) : Store unit :=
  match params with
  | [] => sret tt
  | a :: params' =>
      sbind (λ c, execute (stmt (clock (ops c)) a) c)
            (λ _, executemany_at clock stmt params')
  end.

(** [con.commit()] *)
Definition commit : Store unit :=
  λ c, match fault (ops c) with
       | Some e => (tick c, Raise e)
       | None => ({| committed := working c; working := working c; ops := S (ops c) |}, Ok tt)
       end.

(** [con.rollback()] *)
Definition rollback (c : Conn) : Conn :=
  {| committed := committed c; working := committed c; ops := ops c |}.

(** [with con: body]: commit when the body returns, roll back and
    re-raise when it raises. *)
Definition with_con {A} (body : Store A) : Store A :=
  λ c, match body c with
       | (c', Ok a) =>
           ({| committed := working c'; working := working c'; ops := ops c' |}, Ok a)
       | (c', Raise e) => (rollback c', Raise e)
       end.

(** Between two statements of this connection, while it holds no
    transaction, another process commits. *)
Definition interleave (ns : list string) : Store unit :=
  λ c, let db := other_writer ns (committed c) in
       ({| committed := db; working := db; ops := ops c |}, Ok tt).

End Faults.

End Sql.
Import Sql.

Notation "'do' x <- m ; k" := (Sql.sbind m (λ x, k))
  (at level 10, x name, m at level 100, k at level 200, only parsing).

(** ** [class FicsAgent] *)

Module FicsAgent.

(** What the world does during one pass of the [while True] body. *)
Record env : Type := mkEnv {
  ev_io : Fics.io;                 (* the server's side of [who] *)
  ev_concurrent : list string;     (* names another process commits after the SELECT *)
  ev_fault : nat → option exn;     (* store operations that raise *)
  ev_now : nat → nat;              (* CURRENT_TIMESTAMP at each store operation *)
  ev_sleep : result unit           (* [time.sleep(10)], or the signal that interrupts it *)
}.

Record Agent : Type := mkAgent {
  fics : Telnet;
  store : DB;
  cont : option bool
}.

(** How far a run has come when the recorded environment ends. *)
Inductive outcome : Type :=
| Polling                 (* still inside [while True] *)
| Closed                  (* interrupt caught, [close()] returned *)
| Propagated (e : exn).   (* an exception left [loop()] *)

Record run : Type := mkRun {
  agent : Agent;
  result_of : outcome;
  whos : nat                       (* calls of [fics.who()] made *)
}.

(** [except (KeyboardInterrupt, SystemExit)] *)
Definition is_cancel (e : exn) : bool :=
  match e with
  | KeyboardInterrupt | SystemExit => true
  | _ => false
  end.

Section Loop.

Context {O : IterOrder}.

(** [sqlite3.connect(self.DB_NAME)] *)
Definition connect (fault : nat → option exn) : Store unit :=
  query fault (λ _, tt).

(** The body of [with con:] in [loop]. *)
Definition reconcile (ev : env) (playersFics : gmap nat Player) : Store unit :=
  do names <- query (ev_fault ev) select_names;
  let playersDB : gset string := list_to_set names in
  let playersFicsSet : gset string :=
    list_to_set (name <$> iter_players playersFics) in
  let newPlayers := playersFicsSet ∖ playersDB in
  do _ <- interleave (ev_concurrent ev);
  do _ <- executemany (ev_fault ev) insert_player (iter_names newPlayers);
  do _ <- executemany_at (ev_fault ev) (ev_now ev) insert_observation
            (iter_players playersFics);
  commit (ev_fault ev).

(** One reconciliation against the store, from connect to commit. *)
Definition cycle (ev : env) (playersFics : gmap nat Player) (db : DB)
    : DB * result unit :=
  let '(c, r) :=
    (do _ <- connect (ev_fault ev); with_con (reconcile ev playersFics)) (open db) in
  (committed c, r).

(** One pass of the body of [while True]. *)
Definition iteration (ev : env) (a : Agent) : Agent * result unit :=
  let '(tn, polled) := Fics.who (fics a) (ev_io ev) in
  match polled with
  | Raise e => ({| fics := tn; store := store a; cont := cont a |}, Raise e)
  | Ok playersFics =>
      let '(db, r) := cycle ev playersFics (store a) in
      ({| fics := tn; store := db; cont := cont a |}, _ ← r; ev_sleep ev)
  end.

(** [FicsAgent.close] *)
Definition close (a : Agent) : Agent * result unit :=
  let '(tn, r) := Fics.disconnect (fics a) in
  ({| fics := tn; store := store a; cont := Some false |}, r).

(** [FicsAgent.loop] against a recorded environment, one entry per
    pass. *)
Fixpoint loop (evs : list env) (a : Agent) : run :=
  match evs with
  | [] => {| agent := a; result_of := Polling; whos := 0 |}
  | ev :: evs' =>
      match iteration ev a with
      | (a', Ok _) =>
          let r := loop evs' a' in
          {| agent := agent r; result_of := result_of r; whos := S (whos r) |}
      | (a', Raise e) =>
          if is_cancel e then
            match close a' with
            | (a'', Ok _) => {| agent := a''; result_of := Closed; whos := 1 |}
            | (a'', Raise e') => {| agent := a''; result_of := Propagated e'; whos := 1 |}
            end
          else {| agent := a'; result_of := Propagated e; whos := 1 |}
      end
  end.

End Loop.

End FicsAgent.
Import FicsAgent.

(** ** [Player.__repr__] *)

Definition Player_repr (p : Player) : string :=
  "(" +:+ rating p +:+ ", " +:+ status p +:+ ", " +:+ name p +:+ ")".

(** The characters other than the comma that separates the fields. *)
Definition not_comma (c : ascii) : bool := negb (Text.code c =? 44)%nat.

(** ** [Fics.connect]: the login *)

Module Login.

(** Besides the exceptions of [Py.exn], [str.encode('ascii')] raises
    [UnicodeEncodeError] on a character outside ASCII. *)
Inductive login_exn : Type :=
| Raised (e : exn)
| UnicodeEncodeError.

(** [str.encode('ascii')] *)
Definition encode_ascii (s : string) : login_exn + string :=
  if Text.all_chars (λ c, Text.code c <? 128)%nat s then inr s
  else inl UnicodeEncodeError.

(** What the server does during the login: whether the connection
    opens, and what the three [read_until] calls return or raise. *)
Record login_io : Type := mkLoginIo {
  lg_open : result unit;
  lg_greeting : result string;
  lg_password_prompt : result string;
  lg_ready : result string
}.

(** The last step of [connect]: [self.tn.read_until(b"fics%")]. *)
Definition await_ready (i : login_io) (tn : Telnet) : option Telnet * (login_exn + unit) :=
  match lg_ready i with
  | Ok _ => (Some tn, inr tt)
  | Raise e => (Some tn, inl (Raised e))
  end.

(** The branch [if password:] of [connect]. *)
Definition send_password (i : login_io) (password : string) (tn : Telnet)
    : option Telnet * (login_exn + unit) :=
  match lg_password_prompt i with
  | Raise e => (Some tn, inl (Raised e))
  | Ok _ =>
      match encode_ascii password with
      | inl e => (Some tn, inl e)
      | inr pw =>
          match tn_write tn (pw +:+ lf) with
          | (tn', Ok _) => await_ready i tn'
          | (tn', Raise e) => (Some tn', inl (Raised e))
          end
      end
  end.

(** [Fics.connect]; the first component is [self.tn], unset while the
    connection has not been opened. *)
Definition connect (i : login_io) (user password : string)
    : option Telnet * (login_exn + unit) :=
  match lg_open i with
  | Raise e => (None, inl (Raised e))
  | Ok _ =>
      let tn := {| tn_sock := Connected; tn_sent := [] |} in
      match lg_greeting i with
      | Raise e => (Some tn, inl (Raised e))
      | Ok greeting =>
          match Text.decode_ascii greeting with
          | Raise e => (Some tn, inl (Raised e))
          | Ok _ =>
              match encode_ascii user with
              | inl e => (Some tn, inl e)
              | inr u =>
                  match tn_write tn (u +:+ lf) with
                  | (tn', Raise e) => (Some tn', inl (Raised e))
                  | (tn', Ok _) =>
                      match password with
                      | EmptyString => await_ready i tn'
                      | String _ _ => send_password i password tn'
                      end
                  end
              end
          end
      end
  end.


End Login.

(** ** Predicates on stores *)

(** No row is changed or removed: the old tables are the beginnings of
    the new ones. *)
Definition grows (db db' : DB) : Prop :=
  players db `prefix_of` players db' ∧
  observations db `prefix_of` observations db'.

(** The keys of the schema: names and ids are distinct, no id is above
    its AUTOINCREMENT counter, and every observation refers to the id
    of a player row ([FOREIGN KEY(playerid) REFERENCES players(id)]). *)
Definition keyed (db : DB) : Prop :=
  unique_names db ∧
  NoDup (p_id <$> players db) ∧
  Forall (λ r, (p_id r ≤ players_seq db)%nat) (players db) ∧
  NoDup (o_id <$> observations db) ∧
  Forall (λ o, (o_id o ≤ observations_seq db)%nat) (observations db) ∧
  Forall (λ o, o_playerid o ∈ p_id <$> players db) (observations db).

(** ** Sample inputs used by the examples below *)

Definition tn0 : Telnet := {| tn_sock := Connected; tn_sent := [] |}.

(** A server that answers [who] with [reply] and then prompts. *)
Definition io_of (reply : string) : Fics.io :=
  {| Fics.io_reply := Ok reply; Fics.io_prompt := Ok "fics%" |}.

(** A pass in which nothing else happens: no other writer, no failing
    store operation, an undisturbed sleep. *)
Definition quiet (reply : string) : env :=
  {| ev_io := io_of reply; ev_concurrent := []; ev_fault := λ _, None;
     ev_now := λ _, 0; ev_sleep := Ok tt |}.

Definition a0 : Agent := {| fics := tn0; store := Sql.empty; cont := None |}.

(** * Properties *)

(** ** The token grammar *)

Section Regex.

Import Re Text.

Lemma append_cons c s t : String c s +:+ t = String c (s +:+ t).
Proof. reflexivity. Qed.

Lemma append_empty_r s : s +:+ "" = s.
Proof. induction s as [|c s IH]; [done|]. by rewrite append_cons, IH. Qed.

Lemma many1_sound cls k s gs :
  many1 cls k s = Some gs →
  ∃ g gs' rest,
    gs = g :: gs' ∧ s = g +:+ rest ∧ g ≠ "" ∧
    all_chars cls g = true ∧ k rest = Some gs'.
Proof.
  revert gs. induction s as [|c s IH]; intros gs; simpl; [done|].
  destruct (cls c) eqn:Hc; [|done].
  destruct (many1 cls k s) as [[|g gs1]|] eqn:E.
  - destruct (IH _ eq_refl) as (? & ? & ? & ? & _); done.
  - intros [= <-]. destruct (IH _ eq_refl) as (g' & gs' & rest & [= -> ->] & -> & ? & Hall & Hk).
    exists (String c g'), gs', rest. simpl. rewrite Hc, Hall. done.
  - destruct (k s) as [gs'|] eqn:Hk; [|done]. intros [= <-].
    exists (String c ""), gs', s. simpl. rewrite Hc. done.
Qed.

Lemma many1_greedy cls k r c rest gs :
  r ≠ "" → all_chars cls r = true → cls c = false →
  k (String c rest) = Some gs →
  many1 cls k (r +:+ String c rest) = Some (r :: gs).
Proof.
  intros Hr Hall Hc Hk. induction r as [|a r IH]; [done|].
  simpl in *. apply andb_true_iff in Hall as [-> Hall].
  destruct r as [|b r].
  - change ("" +:+ String c rest) with (String c rest).
    simpl. rewrite Hc, Hk. done.
  - rewrite IH by done. done.
Qed.

Lemma many1_to_end cls n :
  n ≠ "" → all_chars cls n = true → many1 cls (fullmatch []) n = Some [n].
Proof.
  intros Hn Hall. induction n as [|a n IH]; [done|].
  simpl in *. apply andb_true_iff in Hall as [-> Hall].
  destruct n as [|b n]; [done|]. rewrite IH by done. done.
Qed.

(** The groups of a match of [WHO_REGEX]: the leading digits, one
    character that is no digit, the non-empty rest. *)
Lemma fullmatch_who_shape s gs :
  fullmatch Fics.WHO_REGEX s = Some gs →
  ∃ r c n,
    gs = [r; String c ""; n] ∧ s = r +:+ String c n ∧
    r ≠ "" ∧ all_chars is_digit r = true ∧ non_digit c = true ∧
    n ≠ "" ∧ all_chars dot n = true.
Proof.
  unfold Fics.WHO_REGEX. simpl. intros H.
  apply many1_sound in H as (r & gs' & rest & -> & -> & Hr & Hd & H).
  destruct rest as [|c n]; [done|].
  destruct (non_digit c) eqn:Hc; [|done].
  destruct (many1 dot _ n) as [gs''|] eqn:E; [|done].
  injection H as <-.
  apply many1_sound in E as (g & gs3 & rest & -> & -> & Hg & Hdot & Hk).
  destruct rest; [|done]. injection Hk as <-.
  exists r, c, g. by rewrite append_empty_r.
Qed.

Lemma fullmatch_who_complete r c n :
  r ≠ "" → all_chars is_digit r = true → non_digit c = true →
  n ≠ "" → all_chars dot n = true →
  fullmatch Fics.WHO_REGEX (r +:+ String c n) = Some [r; String c ""; n].
Proof.
  intros Hr Hd Hc Hn Hdot. unfold Fics.WHO_REGEX. simpl.
  apply many1_greedy; [done..| |].
  - unfold non_digit in Hc. by apply negb_true_iff.
  - rewrite Hc, many1_to_end; done.
Qed.

(** Tokens of [split] contain no whitespace, hence no line feed. *)
Lemma split_from_tokens cur s tok :
  Forall (λ c, is_space c = false) cur →
  tok ∈ split_from cur s →
  all_chars (λ c, negb (is_space c)) tok = true.
Proof.
  assert (Hflush : ∀ l, Forall (λ c, is_space c = false) l →
    all_chars (λ c, negb (is_space c)) (string_of_list_ascii l) = true).
  { induction 1 as [|c l Hc _ IH]; simpl; [done|]. by rewrite Hc, IH. }
  revert cur. induction s as [|c s IH]; intros cur Hcur; simpl.
  - destruct cur; [by intros ?%elem_of_nil|].
    intros ->%list_elem_of_singleton. apply Hflush.
    apply Forall_forall. intros x Hx%list_elem_of_In%in_rev%list_elem_of_In.
    by eapply Forall_forall in Hcur.
  - destruct (is_space c) eqn:Hc.
    + destruct cur as [|a cur]; [by apply IH|].
      intros [->|Hin]%elem_of_cons; [|by apply (IH []); [constructor|]].
      apply Hflush.
      apply Forall_forall. intros x Hx%list_elem_of_In%in_rev%list_elem_of_In.
      by eapply Forall_forall in Hcur.
    + apply IH. by constructor.
Qed.

Lemma all_chars_app P s t :
  all_chars P (s +:+ t) = all_chars P s && all_chars P t.
Proof.
  induction s as [|c s IH]; [done|].
  rewrite append_cons. simpl. by rewrite IH, andb_assoc.
Qed.

Lemma all_chars_impl (P Q : ascii → bool) s :
  (∀ c, P c = true → Q c = true) →
  all_chars P s = true → all_chars Q s = true.
Proof.
  intros HPQ. induction s; simpl; [done|].
  intros [?%HPQ ?%IHs]%andb_true_iff. by apply andb_true_iff.
Qed.

Lemma space_free_dot c : negb (is_space c) = true → dot c = true.
Proof.
  unfold is_space, dot. intros H.
  destruct (Nat.eqb_spec (code c) 10) as [E|]; [|done].
  rewrite E in H. done.
Qed.

End Regex.

(** ** Parsing the reply *)

Section Parsing.

Import Re Text.

Lemma mbind_Ok {A B} (a : A) (k : A → result B) : (Ok a ≫= k) = k a.
Proof. reflexivity. Qed.

Lemma mbind_Raise {A B} (e : exn) (k : A → result B) : (Raise e ≫= k) = Raise e.
Proof. reflexivity. Qed.

Lemma dict_get_cases d key :
  (∃ v, dict_get d key = Ok v) ∨ dict_get d key = Raise (KeyError key).
Proof.
  induction d as [|[k v] d IH]; simpl; [by right|].
  case_decide; [left; eauto | done].
Qed.

Lemma dict_get_missing d key :
  key ∉ d.*1 → dict_get d key = Raise (KeyError key).
Proof.
  induction d as [|[k v] d IH]; simpl; [done|].
  intros Hn. case_decide as E.
  - subst. destruct Hn. by left.
  - apply IH. intros ?. apply Hn. by right.
Qed.

(** On the groups of a match, the constructor returns a record or
    raises [KeyError]; nothing else can happen. *)
Lemma Player_star_matches toks g :
  g ∈ Fics.matches toks →
  (∃ p, Player_star g = Ok p) ∨ (∃ k, Player_star g = Raise (KeyError k)).
Proof.
  unfold Fics.matches. intros (tok & _ & Hm)%list_elem_of_omap.
  apply fullmatch_who_shape in Hm as (r & c & n & -> & _).
  simpl. unfold Player_init.
  destruct (dict_get_cases STATUSES (String c "")) as [[v ->]| ->]; eauto.
Qed.

Lemma map_iter_KeyError {A B} (f : A → result B) xs :
  (∀ x, x ∈ xs → (∃ y, f x = Ok y) ∨ (∃ k, f x = Raise (KeyError k))) →
  (∃ x k, x ∈ xs ∧ f x = Raise (KeyError k)) →
  ∃ k, map_iter f xs = Raise (KeyError k).
Proof.
  induction xs as [|x xs IH]; intros Hall (x0 & k & Hin & Hx0).
  - by apply elem_of_nil in Hin.
  - simpl. destruct (Hall x) as [[y Hy]|[k' ->]]; [by left| |by eauto].
    rewrite Hy, mbind_Ok.
    apply elem_of_cons in Hin as [->|Hin]; [congruence|].
    destruct IH as [k' ->]; [|by eauto|by eauto].
    intros ??. apply Hall. by right.
Qed.

Lemma map_iter_Permutation {A B} (f : A → result B) xs xs' ys :
  xs ≡ₚ xs' → map_iter f xs = Ok ys →
  ∃ ys', map_iter f xs' = Ok ys' ∧ ys ≡ₚ ys'.
Proof.
  intros Hp. revert ys.
  induction Hp as [|x l l' _ IH|x y l|l l' l'' _ IH1 _ IH2]; intros ys; simpl.
  - intros [= <-]. eauto.
  - destruct (f x); [|done]. rewrite !mbind_Ok.
    destruct (map_iter f l) as [zs|]; [|done]. rewrite mbind_Ok. intros [= <-].
    destruct (IH _ eq_refl) as (zs' & -> & ?). rewrite mbind_Ok.
    eexists; split; [done|]. by constructor.
  - destruct (f y); [|done]. rewrite !mbind_Ok.
    destruct (f x); [|done]. rewrite !mbind_Ok.
    destruct (map_iter f l) as [zs|]; [|done]. rewrite !mbind_Ok. intros [= <-].
    eexists; split; [done|]. by constructor.
  - intros H. destruct (IH1 _ H) as (ys' & H' & ?).
    destruct (IH2 _ H') as (ys'' & ? & ?).
    eexists; split; [done|]. by etrans.
Qed.

Lemma map_iter_length {A B} (f : A → result B) xs ys :
  map_iter f xs = Ok ys → length ys = length xs.
Proof.
  revert ys. induction xs as [|x xs IH]; intros ys; simpl.
  - by intros [= <-].
  - destruct (f x); [|done]. rewrite mbind_Ok.
    destruct (map_iter f xs); [|done]. rewrite mbind_Ok.
    intros [= <-]. simpl. by rewrite (IH _ eq_refl).
Qed.

(** The records of the identity-keyed set are the allocated objects. *)
Lemma frozenset_alloc_records (players : list Player) :
  (map_to_list (Fics.frozenset (Fics.alloc players))).*2 ≡ₚ players.
Proof.
  unfold Fics.frozenset, Fics.alloc.
  rewrite map_to_list_to_map.
  - rewrite fmap_imap. rewrite (imap_ext _ (const id)) by done.
    by rewrite imap_const, list_fmap_id.
  - rewrite fmap_imap. rewrite (imap_ext _ (λ i _, i)) by done.
    rewrite imap_seq_0, list_fmap_id. apply NoDup_seq.
Qed.

Lemma frozenset_alloc_size (players : list Player) :
  size (Fics.frozenset (Fics.alloc players)) = length players.
Proof.
  rewrite <-(frozenset_alloc_records players) at 2.
  by rewrite length_fmap, length_map_to_list.
Qed.

(** [who] whose write is accepted and whose reads succeed is the
    parser. *)
Lemma who_writable tn i bytes prompt :
  tn_sock tn ≠ Reset →
  Fics.io_reply i = Ok bytes → Fics.io_prompt i = Ok prompt →
  (Fics.who tn i).2 =
    (text ← decode_ascii bytes;
     players ← Fics.parse (split text);
     Ok (Fics.frozenset (Fics.alloc players))).
Proof.
  intros Hs Hr Hp. unfold Fics.who, tn_write.
  destruct (tn_sock tn); [| |done]; simpl;
    (rewrite Hr, mbind_Ok; destruct (decode_ascii bytes); [|done];
     by rewrite !mbind_Ok, Hp).
Qed.

Lemma who_connected tn i bytes prompt :
  tn_sock tn = Connected →
  Fics.io_reply i = Ok bytes → Fics.io_prompt i = Ok prompt →
  (Fics.who tn i).2 =
    (text ← decode_ascii bytes;
     players ← Fics.parse (split text);
     Ok (Fics.frozenset (Fics.alloc players))).
Proof. intros Hs. apply who_writable. by rewrite Hs. Qed.

End Parsing.

(** ** The loop around a failing poll *)

Section PollFailure.

Context {O : IterOrder}.

Lemma iteration_poll_raises (ev : env) (a : Agent) (e : exn) :
  (Fics.who (fics a) (ev_io ev)).2 = Raise e →
  iteration ev a =
    ({| fics := (Fics.who (fics a) (ev_io ev)).1; store := store a; cont := cont a |},
     Raise e).
Proof.
  unfold iteration. destruct (Fics.who _ _) as [tn r]. simpl. by intros ->.
Qed.

Lemma loop_poll_raises (ev : env) (evs : list env) (a : Agent) (e : exn) :
  (Fics.who (fics a) (ev_io ev)).2 = Raise e →
  is_cancel e = false →
  loop (ev :: evs) a =
    {| agent := {| fics := (Fics.who (fics a) (ev_io ev)).1;
                   store := store a; cont := cont a |};
       result_of := Propagated e; whos := 1 |}.
Proof.
  intros H Hc. simpl. rewrite (iteration_poll_raises _ _ _ H). by rewrite Hc.
Qed.

End PollFailure.

(** ** The store operations *)

Section StoreLemmas.

Variable fault : nat → option exn.

Lemma select_ids_absent n db :
  n ∉ select_names db → select_ids n db = [].
Proof.
  unfold select_ids, select_names.
  induction (players db) as [|r rs IH]; [done|].
  rewrite fmap_cons, not_elem_of_cons. intros [Hne Hn].
  rewrite filter_cons. case_decide; [done|]. by apply IH.
Qed.

(** Under the UNIQUE constraint a name selects exactly one row. *)
Lemma select_ids_unique n db :
  unique_names db → n ∈ select_names db →
  ∃ pid, select_ids n db = [pid] ∧ {| p_id := pid; p_name := n |} ∈ players db.
Proof.
  unfold unique_names, select_ids, select_names.
  induction (players db) as [|r rs IH]; [by intros _ ?%elem_of_nil|].
  rewrite fmap_cons, NoDup_cons, elem_of_cons. intros [Hr Hnd] Hin.
  rewrite filter_cons. case_decide as E.
  - exists (p_id r). split.
    + rewrite fmap_cons. f_equal.
      change (select_ids n {| players := rs; players_seq := 0;
                             observations := []; observations_seq := 0 |} = []).
      apply select_ids_absent. by rewrite <-E.
    + destruct r; simpl in *; subst. by left.
  - destruct Hin as [->|Hin]; [done|].
    destruct (IH Hnd Hin) as (pid & ? & ?). exists pid. split; [done|]. by right.
Qed.

(** Integer affinity on bound ratings: leading zeros go, sixty-four
    bits are the limit of INTEGER, a text that is no number stays. *)
Example int_affinity_examples :
  int_affinity "1923" = Integer 1923 ∧
  int_affinity "0015" = Integer 15 ∧
  int_affinity "9223372036854775807" = Integer 9223372036854775807 ∧
  int_affinity "9223372036854775808" = Real 9223372036854775808 ∧
  int_affinity "99999999999999999999" = Real 99999999999999999999 ∧
  int_affinity "----" = Other "----".
Proof. vm_compute. repeat split; reflexivity. Qed.

(** A rating that [WHO_REGEX] matched is stored as a number. *)
Lemma int_affinity_digits s :
  s ≠ "" → Text.all_chars Text.is_digit s = true →
  int_affinity s = Integer (digits_value s) ∨ int_affinity s = Real (digits_value s).
Proof.
  intros Hs Hd. unfold int_affinity. destruct s; [done|]. rewrite Hd.
  destruct (_ <=? _)%N; [by left|by right].
Qed.

Lemma query_committed {A} (f : DB → A) c :
  committed (query fault f c).1 = committed c.
Proof. unfold query. by destruct (fault (ops c)). Qed.

Lemma execute_committed stmt c :
  committed (execute fault stmt c).1 = committed c.
Proof.
  unfold execute. destruct (fault (ops c)); [done|].
  by destruct (stmt (working c)).
Qed.

Lemma executemany_committed {A} (stmt : A → DB → result DB) params c :
  committed (executemany fault stmt params c).1 = committed c.
Proof.
  revert c. induction params as [|a params IH]; intros c; [done|].
  simpl. unfold sbind.
  pose proof (execute_committed (stmt a) c) as Hc.
  destruct (execute fault (stmt a) c) as [c1 [[]|e]]; simpl in *; [|done].
  by rewrite IH.
Qed.


(** Every execution counts as one store operation. *)
Lemma executemany_ops {A} (stmt : A → DB → result DB) params c c' :
  executemany fault stmt params c = (c', Ok tt) →
  ops c' = ops c + length params.
Proof.
  revert c. induction params as [|a params IH]; intros c; simpl.
  - intros [= <-]. lia.
  - unfold sbind. destruct (execute fault (stmt a) c) as [c1 [[]|e]] eqn:E; [|done].
    intros ->%IH. unfold execute in E. destruct (fault (ops c)); [done|].
    destruct (stmt a (working c)); [|done]. injection E as <-. simpl. lia.
Qed.


Hypothesis no_fault : ∀ k, fault k = None.

(** Without a failing operation, [executemany] of the player insert
    over distinct names none of which is stored appends one row per
    name, in order. *)
Lemma executemany_insert_player_fresh ns c :
  NoDup ns → (∀ n, n ∈ ns → n ∉ select_names (working c)) →
  ∃ c' new,
    executemany fault insert_player ns c = (c', Ok tt) ∧
    committed c' = committed c ∧
    players (working c') = (players (working c) ++ new)%list ∧
    p_name <$> new = ns ∧
    observations (working c') = observations (working c).
Proof.
  revert c. induction ns as [|n ns IH]; intros c Hnd Hfresh.
  - exists c, []. by rewrite app_nil_r.
  - apply NoDup_cons in Hnd as [Hn Hnd].
    simpl. unfold sbind, execute. rewrite no_fault.
    unfold insert_player at 1. rewrite decide_False by (apply Hfresh; by left).
    match goal with |- context [executemany _ _ _ ?c1] => destruct (IH c1) as
      (c' & new & -> & Hc & Hp & Hnew & Ho) end; [done| |].
    + intros n' Hn'. simpl. unfold select_names. simpl.
      rewrite fmap_app, elem_of_app. intros [Hin|Hin].
      * by eapply Hfresh; [right|].
      * apply list_elem_of_singleton in Hin. simpl in Hin. by subst.
    + simpl in *.
      exists c', ({| p_id := S (players_seq (working c)); p_name := n |} :: new).
      repeat split; [done| |by rewrite fmap_cons, Hnew|done].
      by rewrite Hp, <-app_assoc.
Qed.

(** A name that is already stored makes the [executemany] of the
    player insert raise [IntegrityError]. *)
Lemma executemany_insert_player_conflict ns c n :
  n ∈ ns → n ∈ select_names (working c) →
  ∃ c', executemany fault insert_player ns c = (c', Raise IntegrityError).
Proof.
  revert c. induction ns as [|a ns IH]; intros c Hin Hn; [by apply elem_of_nil in Hin|].
  simpl. unfold sbind, execute. rewrite no_fault.
  unfold insert_player at 1. case_decide as Ha; [by eexists|].
  apply elem_of_cons in Hin as [->|Hin]; [done|].
  apply IH; [done|]. simpl. unfold select_names. simpl.
  rewrite fmap_app, elem_of_app. by left.
Qed.

(** Without a failing operation, [executemany] of the observation
    insert over records whose names are stored appends one row per
    record, in order, each linked to the player row of that name, with
    the rating as the column's affinity converts it and the clock
    reading of its own execution. *)
Lemma executemany_at_insert_observation_known clock ps c :
  unique_names (working c) →
  (∀ p, p ∈ ps → name p ∈ select_names (working c)) →
  ∃ c' obs,
    executemany_at fault clock insert_observation ps c = (c', Ok tt) ∧
    committed c' = committed c ∧
    players (working c') = players (working c) ∧
    observations (working c') = (observations (working c) ++ obs)%list ∧
    o_time <$> obs = clock <$> seq (ops c) (length ps) ∧
    Forall2 (λ p o, o_rating o = int_affinity (rating p) ∧ o_status o = status p ∧
                    {| p_id := o_playerid o; p_name := name p |} ∈ players (working c))
            ps obs.
Proof.
  revert c. induction ps as [|p ps IH]; intros c Hu Hknown.
  - exists c, []. by rewrite app_nil_r.
  - simpl. unfold sbind, execute. rewrite no_fault.
    unfold insert_observation at 1.
    destruct (select_ids_unique (name p) (working c)) as (pid & -> & Hrow);
      [done|apply Hknown; by left|].
    simpl.
    match goal with |- context [executemany_at _ _ _ _ ?c1] => destruct (IH c1) as
      (c' & obs & -> & Hc & Hp & Ho & Ht & HF) end; [done| |].
    + intros p' Hp'. apply Hknown. by right.
    + simpl in *. eexists c', (_ :: obs). repeat split; [done|done| | |].
      * by rewrite Ho, <-app_assoc.
      * rewrite fmap_cons. simpl. by rewrite Ht.
      * by constructor.
Qed.

End StoreLemmas.

(** ** One reconciliation *)

Section CycleLemmas.

Context {O : IterOrder}.

Lemma iter_names_NoDup s : NoDup (iter_names s).
Proof. rewrite iter_names_perm. apply NoDup_elements. Qed.

Lemma elem_of_iter_names s n : n ∈ iter_names s ↔ n ∈ s.
Proof. rewrite iter_names_perm. apply elem_of_elements. Qed.

(** The names the body of [loop] finds to be new. *)
Lemma newPlayers_order_free (playersFics : gmap nat Player) (db : DB) :
  list_to_set (name <$> iter_players playersFics) ∖ list_to_set (select_names db)
  =@{gset string}
  list_to_set (name <$> (map_to_list playersFics).*2) ∖ list_to_set (select_names db).
Proof. by rewrite iter_players_perm. Qed.

(** A reconciliation that nothing disturbs: every new name gets a
    player row, every record an observation row. *)
Lemma cycle_quiet (ev : env) (playersFics : gmap nat Player) (db : DB) :
  unique_names db →
  (∀ k, ev_fault ev k = None) →
  ev_concurrent ev = [] →
  ∃ db' new obs,
    cycle ev playersFics db = (db', Ok tt) ∧
    unique_names db' ∧
    players db' = (players db ++ new)%list ∧
    p_name <$> new =
      iter_names (list_to_set (name <$> iter_players playersFics)
                  ∖ list_to_set (select_names db)) ∧
    observations db' = (observations db ++ obs)%list ∧
    o_time <$> obs = ev_now ev <$> seq (2 + length new) (length obs) ∧
    Forall2 (λ p o, o_rating o = int_affinity (rating p) ∧
                    o_status o = status p ∧
                    {| p_id := o_playerid o; p_name := name p |} ∈ players db')
            (iter_players playersFics) obs.
Proof.
  intros Hu Hf Hc.
  unfold cycle, connect, reconcile, with_con, sbind, query, interleave.
  rewrite !Hf, Hc. simpl. rewrite ?Hf. simpl.
  set (newPlayers := list_to_set _ ∖ list_to_set (select_names db)).
  match goal with |- context [executemany _ insert_player _ ?c1] =>
    destruct (executemany_insert_player_fresh (ev_fault ev) Hf (iter_names newPlayers) c1)
      as (c2 & new & Hex & Hc2 & Hp2 & Hnew & Ho2) end.
  { apply iter_names_NoDup. }
  { intros n Hn%elem_of_iter_names. simpl. subst newPlayers.
    apply elem_of_difference in Hn as [_ Hn]. by rewrite elem_of_list_to_set in Hn. }
  pose proof (executemany_ops _ _ _ _ _ Hex) as Hops. rewrite Hex.
  simpl in *.
  assert (Hu2 : unique_names (working c2)).
  { unfold unique_names, select_names. rewrite Hp2, fmap_app, Hnew.
    apply NoDup_app. split; [done|]. split; [|apply iter_names_NoDup].
    intros n Hn Hn'%elem_of_iter_names. subst newPlayers.
    apply elem_of_difference in Hn' as [_ Hn']. by rewrite elem_of_list_to_set in Hn'. }
  destruct (executemany_at_insert_observation_known (ev_fault ev) Hf (ev_now ev)
              (iter_players playersFics) c2) as (c3 & obs & -> & Hc3 & Hp3 & Ho3 & Ht3 & HF);
    [done| |].
  { intros p Hp. unfold select_names. rewrite Hp2, fmap_app, Hnew, elem_of_app.
    destruct (decide (name p ∈ select_names db)) as [|Hnot]; [by left|right].
    apply elem_of_iter_names. subst newPlayers.
    apply elem_of_difference. rewrite !elem_of_list_to_set. split; [|done].
    by apply list_elem_of_fmap_2. }
  unfold commit. rewrite Hf. simpl.
  exists (working c3), new, obs. repeat split.
  - unfold unique_names, select_names in *. by rewrite Hp3.
  - by rewrite Hp3, Hp2.
  - done.
  - by rewrite Ho3, Ho2.
  - rewrite Ht3, Hops. apply Forall2_length in HF. rewrite <-HF.
    by rewrite <-(length_fmap p_name new), Hnew.
  - rewrite Hp3. done.
Qed.

End CycleLemmas.

(** ** One pass of the loop *)

Section IterationLemmas.

Context {O : IterOrder}.



Lemma iteration_polled (ev : env) (a : Agent) (m : gmap nat Player) :
  (Fics.who (fics a) (ev_io ev)).2 = Ok m →
  iteration ev a =
    ({| fics := (Fics.who (fics a) (ev_io ev)).1;
        store := (cycle ev m (store a)).1; cont := cont a |},
     _ ← (cycle ev m (store a)).2; ev_sleep ev).
Proof.
  unfold iteration. destruct (Fics.who _ _) as [tn r]. simpl. intros ->.
  by destruct (cycle ev m (store a)).
Qed.

Lemma other_writer_observations ns db :
  observations (other_writer ns db) = observations db.
Proof.
  unfold other_writer. revert db. induction ns as [|n ns IH]; intros db; [done|].
  simpl. rewrite IH. unfold insert_player. by case_decide.
Qed.


End IterationLemmas.

(** * The claims *)

(** C6: the token ["1923^GM_Foo"] parses to the record with rating
    [1923] (the digits as matched), status [INGAME] and name [GM_Foo];
    the tokens ["abc"] and ["1923"] do not match the grammar and are
    dropped without an exception, alone or next to a matching token. *)
Theorem parser_correctness :
  Re.fullmatch Fics.WHO_REGEX "1923^GM_Foo" = Some ["1923"; "^"; "GM_Foo"] ∧
  Fics.parse ["1923^GM_Foo"] =
    Ok [{| rating := "1923"; status := "INGAME"; name := "GM_Foo" |}] ∧
  Re.fullmatch Fics.WHO_REGEX "abc" = None ∧
  Re.fullmatch Fics.WHO_REGEX "1923" = None ∧
  Fics.parse ["abc"; "1923"] = Ok [] ∧
  (Fics.who tn0 (io_of "abc 1923^GM_Foo 1923")).2 =
    Ok (Fics.frozenset
          [(0, {| rating := "1923"; status := "INGAME"; name := "GM_Foo" |})]).
Proof. repeat split; vm_compute; reflexivity. Qed.

(** C1 (the code departs from it): a token of digits, one further
    character that is no digit and none of the six mapped status
    characters, and a non-empty rest is not dropped.  The constructor's
    lookup in [STATUSES] raises [KeyError]; [who] lets it through, and
    so does [loop], which ends on the first such reply. *)
Theorem unmapped_status_raises
    (tn : Telnet) (i : Fics.io) (bytes text prompt r n : string) (c : ascii) :
  tn_sock tn = Connected →
  Fics.io_reply i = Ok bytes →
  Text.decode_ascii bytes = Ok text →
  Fics.io_prompt i = Ok prompt →
  r +:+ String c n ∈ Text.split text →
  r ≠ "" → Text.all_chars Text.is_digit r = true →
  Text.non_digit c = true → n ≠ "" →
  String c "" ∉ STATUSES.*1 →
  ∃ k,
    (Fics.who tn i).2 = Raise (KeyError k) ∧
    ∀ (O : IterOrder) (ev : env) (evs : list env) (a : Agent),
      fics a = tn → ev_io ev = i →
      result_of (loop (ev :: evs) a) = Propagated (KeyError k) ∧
      store (agent (loop (ev :: evs) a)) = store a.
Proof.
  intros Hs Hr Hd Hp Hin Hr0 Hdig Hc Hn Hun.
  assert (Hdot : Text.all_chars Text.dot n = true).
  { apply (split_from_tokens [] text) in Hin; [|constructor].
    rewrite all_chars_app in Hin. apply andb_true_iff in Hin as [_ Hin].
    simpl in Hin. apply andb_true_iff in Hin as [_ Hin].
    eapply all_chars_impl; [apply space_free_dot|done]. }
  assert (∃ k, Fics.parse (Text.split text) = Raise (KeyError k)) as [k Hk].
  { apply map_iter_KeyError; [apply Player_star_matches|].
    exists [r; String c ""; n], (String c ""). split.
    - apply list_elem_of_omap. eexists; split; [done|].
      by apply fullmatch_who_complete.
    - simpl. unfold Player_init. by rewrite dict_get_missing. }
  exists k.
  assert (Hwho : (Fics.who tn i).2 = Raise (KeyError k)).
  { rewrite (who_connected _ _ _ _ Hs Hr Hp), Hd, mbind_Ok. by rewrite Hk. }
  split; [done|]. intros O ev evs a <- <-.
  by rewrite (loop_poll_raises _ _ _ _ Hwho).
Qed.

(** The reply ["1923!Foo"]: one token, status character [!]. *)
Lemma unmapped_status_raises_witness :
  ∃ k,
    (Fics.who tn0 (io_of "1923!Foo")).2 = Raise (KeyError k) ∧
    ∀ (O : IterOrder) (ev : env) (evs : list env) (a : Agent),
      fics a = tn0 → ev_io ev = io_of "1923!Foo" →
      result_of (loop (ev :: evs) a) = Propagated (KeyError k) ∧
      store (agent (loop (ev :: evs) a)) = store a.
Proof.
  apply (unmapped_status_raises tn0 (io_of "1923!Foo")
           "1923!Foo" "1923!Foo" "fics%" "1923" "Foo" "!");
    try reflexivity; try discriminate.
  - vm_compute. by left.
  - vm_compute. intros H. repeat (apply elem_of_cons in H as [H|H]; [discriminate|]).
    by apply elem_of_nil in H.
Defined.

(** C2, as the specification words it, fails: after the reply
    ["1923!Foo"] the poll raises [KeyError]; [loop] has no handler for
    it, so the run ends there and the next recorded pass, whose reply
    is well formed, is never polled.  The same happens when the read
    of the reply raises [EOFError]. *)
Lemma failed_poll_is_not_retried :
  let run := loop [quiet "1923!Foo"; quiet "1500:Alice"] a0 in
  let cut := {| ev_io := {| Fics.io_reply := Raise EOFError; Fics.io_prompt := Ok "fics%" |};
                ev_concurrent := []; ev_fault := λ _, None; ev_now := λ _, 0;
                ev_sleep := Ok tt |} in
  let run' := loop [cut; quiet "1500:Alice"] a0 in
  (Fics.who (fics a0) (ev_io (quiet "1923!Foo"))).2 = Raise (KeyError "!") ∧
  result_of run = Propagated (KeyError "!") ∧
  whos run = 1 ∧
  (Fics.who (fics a0) (ev_io cut)).2 = Raise EOFError ∧
  result_of run' = Propagated EOFError ∧
  whos run' = 1.
Proof. vm_compute. repeat split; reflexivity. Qed.

(** C2 (amended): when the poll of a pass raises, that pass writes
    nothing to the store and no later poll is made.  [loop] catches
    only [KeyboardInterrupt] and [SystemExit], on which it calls
    [close()]; every other exception leaves [loop], and so does one
    raised by [close()] itself. *)
Theorem failed_poll_ends_loop
    (O : IterOrder) (ev : env) (evs : list env) (a : Agent) (e : exn) :
  (Fics.who (fics a) (ev_io ev)).2 = Raise e →
  store (agent (loop (ev :: evs) a)) = store a ∧
  whos (loop (ev :: evs) a) = 1 ∧
  result_of (loop (ev :: evs) a) =
    if is_cancel e then
      match (Fics.disconnect (Fics.who (fics a) (ev_io ev)).1).2 with
      | Ok _ => Closed
      | Raise e' => Propagated e'
      end
    else Propagated e.
Proof.
  intros H. simpl. rewrite (iteration_poll_raises _ _ _ H).
  destruct (is_cancel e); [|done].
  unfold close. simpl.
  destruct (Fics.disconnect _) as [tn [[]|e']]; done.
Qed.

Lemma failed_poll_ends_loop_witness :
  store (agent (loop [quiet "1923!Foo"; quiet "1500:Alice"] a0)) = store a0 ∧
  whos (loop [quiet "1923!Foo"; quiet "1500:Alice"] a0) = 1 ∧
  result_of (loop [quiet "1923!Foo"; quiet "1500:Alice"] a0) = Propagated (KeyError "!").
Proof.
  apply (failed_poll_ends_loop key_order (quiet "1923!Foo") [quiet "1500:Alice"] a0
           (KeyError "!")).
  vm_compute. reflexivity.
Defined.

(** C10: the observation statement selects the player rows whose name
    equals the record's name and inserts one row per selected row.  For
    a record whose name no row of [players] carries, it selects
    nothing: the statement succeeds, the store is as before, and the
    remaining records of the [executemany] are processed as usual,
    whatever the clock reads. *)
Theorem observation_of_unknown_name_is_dropped
    (fault : nat → option exn) (now : nat) (p : Player) (ps : list Player) (c : Conn) :
  name p ∉ select_names (working c) →
  fault (ops c) = None →
  select_ids (name p) (working c) = [] ∧
  insert_observation now p (working c) = Ok (working c) ∧
  execute fault (insert_observation now p) c = (tick c, Ok tt) ∧
  executemany fault (insert_observation now) (p :: ps) c =
    executemany fault (insert_observation now) ps (tick c) ∧
  ∀ clock : nat → nat,
    executemany_at fault clock insert_observation (p :: ps) c =
      executemany_at fault clock insert_observation ps (tick c).
Proof.
  intros Hn Hf.
  assert (Hsel : select_ids (name p) (working c) = []).
  { unfold select_ids, select_names in *.
    induction (players (working c)) as [|r rs IH]; [done|].
    rewrite filter_cons. case_decide as E.
    - destruct Hn. rewrite fmap_cons, E. by left.
    - apply IH. intros ?. apply Hn. rewrite fmap_cons. by right. }
  assert (Hins : insert_observation now p (working c) = Ok (working c)).
  { unfold insert_observation. by rewrite Hsel. }
  assert (Hex : execute fault (insert_observation now p) c = (tick c, Ok tt)).
  { unfold execute. rewrite Hf, Hins. done. }
  assert (Hany : ∀ t, execute fault (insert_observation t p) c = (tick c, Ok tt)).
  { intros t. unfold execute, insert_observation. by rewrite Hf, Hsel. }
  repeat split; try done.
  - simpl. unfold sbind. by rewrite Hex.
  - intros clock. simpl. unfold sbind. by rewrite Hany.
Qed.

(** A record named [Carol] against a table that holds only [Alice]. *)
Lemma observation_of_unknown_name_is_dropped_witness :
  let c := Sql.open {| players := [{| p_id := 1; p_name := "Alice" |}];
                       players_seq := 1; observations := []; observations_seq := 0 |} in
  let p := {| rating := "1700"; status := "INGAME"; name := "Carol" |} in
  select_ids (name p) (working c) = [] ∧
  insert_observation 5 p (working c) = Ok (working c) ∧
  execute (λ _, None) (insert_observation 5 p) c = (tick c, Ok tt) ∧
  executemany (λ _, None) (insert_observation 5) [p] c =
    executemany (λ _, None) (insert_observation 5) [] (tick c) ∧
  ∀ clock : nat → nat,
    executemany_at (λ _, None) clock insert_observation [p] c =
      executemany_at (λ _, None) clock insert_observation [] (tick c).
Proof.
  apply (observation_of_unknown_name_is_dropped (λ _, None) 5
           {| rating := "1700"; status := "INGAME"; name := "Carol" |} []
           (Sql.open {| players := [{| p_id := 1; p_name := "Alice" |}];
                        players_seq := 1; observations := []; observations_seq := 0 |})).
  - vm_compute. intros H. apply elem_of_cons in H as [H|H]; [discriminate|].
    by apply elem_of_nil in H.
  - reflexivity.
Defined.

(** C7, as the specification words it, fails: [Player] defines neither
    [__eq__] nor [__hash__], so the [frozenset] is keyed by object
    identity.  Two tokens with the same name, even two identical
    tokens, give two records in the returned set. *)
Lemma same_name_records_do_not_collapse :
  let alice := {| rating := "1500"; status := "NOT_OPEN"; name := "Alice" |} in
  let alice' := {| rating := "1700"; status := "INACTIVE"; name := "Alice" |} in
  (Fics.who tn0 (io_of "1500:Alice 1500:Alice")).2
    = Ok (Fics.frozenset [(0, alice); (1, alice)]) ∧
  size (Fics.frozenset [(0, alice); (1, alice)]) = 2 ∧
  (Fics.who tn0 (io_of "1500:Alice 1700.Alice")).2
    = Ok (Fics.frozenset [(0, alice); (1, alice')]) ∧
  size (Fics.frozenset [(0, alice); (1, alice')]) = 2.
Proof. vm_compute. repeat split; reflexivity. Qed.

(** C7 (amended): the set [who] returns holds one record per matching
    token, [size] counting them all, whatever their names; names
    collapse only later, when [loop] builds its set of names.  The
    records do not depend on the order of the tokens: a reply with the
    same tokens in another order yields the same records. *)
Theorem who_returns_one_record_per_match
    (tn : Telnet) (i : Fics.io) (m : gmap nat Player) :
  (Fics.who tn i).2 = Ok m →
  ∃ bytes text players,
    Fics.io_reply i = Ok bytes ∧
    Text.decode_ascii bytes = Ok text ∧
    Fics.parse (Text.split text) = Ok players ∧
    (map_to_list m).*2 ≡ₚ players ∧
    size m = length (Fics.matches (Text.split text)) ∧
    ∀ (i' : Fics.io) (bytes' text' prompt' : string),
      Fics.io_reply i' = Ok bytes' →
      Text.decode_ascii bytes' = Ok text' →
      Fics.io_prompt i' = Ok prompt' →
      Text.split text' ≡ₚ Text.split text →
      ∃ m', (Fics.who tn i').2 = Ok m' ∧
            (map_to_list m').*2 ≡ₚ (map_to_list m).*2.
Proof.
  intros H.
  assert (Hs : tn_sock tn ≠ Reset).
  { unfold Fics.who, tn_write in H. by destruct (tn_sock tn). }
  destruct (Fics.io_reply i) as [bytes|] eqn:Hr.
  2:{ unfold Fics.who, tn_write in H. rewrite Hr in H. by destruct (tn_sock tn). }
  destruct (Fics.io_prompt i) as [prompt|] eqn:Hp.
  2:{ unfold Fics.who, tn_write in H. rewrite Hr, Hp in H.
      destruct (tn_sock tn); simpl in H; try done;
        by destruct (Text.decode_ascii bytes). }
  rewrite (who_writable _ _ _ _ Hs Hr Hp) in H.
  destruct (Text.decode_ascii bytes) as [text|] eqn:Hd; [|done].
  rewrite mbind_Ok in H.
  destruct (Fics.parse (Text.split text)) as [players|] eqn:Hparse; [|done].
  rewrite mbind_Ok in H. injection H as <-.
  exists bytes, text, players. repeat split; try done.
  - apply frozenset_alloc_records.
  - rewrite frozenset_alloc_size. by apply map_iter_length in Hparse.
  - intros i' bytes' text' prompt' Hr' Hd' Hp' Hperm.
    unfold Fics.parse, Fics.matches in Hparse.
    eapply map_iter_Permutation in Hparse as (players' & Hparse' & Hpp);
      [|by rewrite <-Hperm].
    eexists. split.
    + rewrite (who_writable _ _ _ _ Hs Hr' Hp'), Hd', mbind_Ok.
      unfold Fics.parse, Fics.matches. by rewrite Hparse', mbind_Ok.
    + by rewrite !frozenset_alloc_records.
Qed.

(** The reply ["1500:Alice 2100^Bob"] and the same tokens swapped. *)
Lemma who_returns_one_record_per_match_witness :
  ∃ bytes text players,
    Fics.io_reply (io_of "1500:Alice 2100^Bob") = Ok bytes ∧
    Text.decode_ascii bytes = Ok text ∧
    Fics.parse (Text.split text) = Ok players ∧
    (map_to_list (Fics.frozenset
       [(0, {| rating := "1500"; status := "NOT_OPEN"; name := "Alice" |});
        (1, {| rating := "2100"; status := "INGAME"; name := "Bob" |})])).*2 ≡ₚ players ∧
    size (Fics.frozenset
       [(0, {| rating := "1500"; status := "NOT_OPEN"; name := "Alice" |});
        (1, {| rating := "2100"; status := "INGAME"; name := "Bob" |})])
      = length (Fics.matches (Text.split text)) ∧
    ∀ (i' : Fics.io) (bytes' text' prompt' : string),
      Fics.io_reply i' = Ok bytes' →
      Text.decode_ascii bytes' = Ok text' →
      Fics.io_prompt i' = Ok prompt' →
      Text.split text' ≡ₚ Text.split text →
      ∃ m', (Fics.who tn0 i').2 = Ok m' ∧
            (map_to_list m').*2 ≡ₚ
            (map_to_list (Fics.frozenset
               [(0, {| rating := "1500"; status := "NOT_OPEN"; name := "Alice" |});
                (1, {| rating := "2100"; status := "INGAME"; name := "Bob" |})])).*2.
Proof.
  apply (who_returns_one_record_per_match tn0 (io_of "1500:Alice 2100^Bob")).
  vm_compute. reflexivity.
Defined.

(** C4: a reconciliation that nothing disturbs inserts one player row
    per name of [fresh], the observed names without the known ones,
    and one observation row per observed record, new or known, each
    linked to the player row of the record's name and carrying the
    record's status, its rating as the column [rating INT] converts
    the bound text, and the clock reading of its own insert.  With [A]
    and [B] known and [B] and [C] observed, the one new player row is
    [C]'s, and [B] and [C] each get an observation row. *)
Theorem cycle_inserts_fresh_entities_and_all_observations :
  (∀ (O : IterOrder) (ev : env) (playersFics : gmap nat Player) (db : DB),
     unique_names db →
     (∀ k, ev_fault ev k = None) →
     ev_concurrent ev = [] →
     ∃ db' new obs,
       cycle ev playersFics db = (db', Ok tt) ∧
       players db' = (players db ++ new)%list ∧
       p_name <$> new ≡ₚ
         elements (list_to_set (name <$> (map_to_list playersFics).*2)
                   ∖ list_to_set (select_names db) : gset string) ∧
       observations db' = (observations db ++ obs)%list ∧
       length obs = size playersFics ∧
       o_time <$> obs = ev_now ev <$> seq (2 + length new) (length obs) ∧
       Forall2 (λ p o, o_rating o = int_affinity (rating p) ∧
                       o_status o = status p ∧
                       {| p_id := o_playerid o; p_name := name p |} ∈ players db')
               (iter_players playersFics) obs) ∧
  cycle {| ev_io := io_of ""; ev_concurrent := []; ev_fault := λ _, None;
           ev_now := λ k, 1000 + k; ev_sleep := Ok tt |}
    (Fics.frozenset [(0, {| rating := "1800"; status := "INGAME"; name := "B" |});
                     (1, {| rating := "1700"; status := "NOT_OPEN"; name := "C" |})])
    {| players := [{| p_id := 1; p_name := "A" |}; {| p_id := 2; p_name := "B" |}];
       players_seq := 2; observations := []; observations_seq := 0 |}
  = ({| players := [{| p_id := 1; p_name := "A" |}; {| p_id := 2; p_name := "B" |};
                    {| p_id := 3; p_name := "C" |}];
        players_seq := 3;
        observations :=
          [{| o_id := 1; o_time := 1003; o_playerid := 3;
              o_rating := Integer 1700; o_status := "NOT_OPEN" |};
           {| o_id := 2; o_time := 1004; o_playerid := 2;
              o_rating := Integer 1800; o_status := "INGAME" |}];
        observations_seq := 2 |}, Ok tt).
Proof.
  split; [|vm_compute; reflexivity].
  intros O ev m db Hu Hf Hc.
  destruct (cycle_quiet ev m db Hu Hf Hc)
    as (db' & new & obs & Hcy & _ & Hp & Hnew & Ho & Ht & HF).
  exists db', new, obs. repeat split; try done.
  - rewrite Hnew, iter_names_perm. by rewrite newPlayers_order_free.
  - apply Forall2_length in HF. rewrite <-HF, iter_players_perm.
    by rewrite length_fmap, length_map_to_list.
Qed.

(** The instance with [A], [B] known and [B], [C] observed. *)
Lemma cycle_inserts_fresh_entities_and_all_observations_witness :
  ∃ db' new obs,
    cycle (quiet "")
      (Fics.frozenset [(0, {| rating := "1800"; status := "INGAME"; name := "B" |});
                       (1, {| rating := "1700"; status := "NOT_OPEN"; name := "C" |})])
      {| players := [{| p_id := 1; p_name := "A" |}; {| p_id := 2; p_name := "B" |}];
         players_seq := 2; observations := []; observations_seq := 0 |}
    = (db', Ok tt) ∧
    players db' = ([{| p_id := 1; p_name := "A" |}; {| p_id := 2; p_name := "B" |}] ++ new)%list ∧
    p_name <$> new ≡ₚ
      elements (list_to_set (name <$> (map_to_list
         (Fics.frozenset [(0, {| rating := "1800"; status := "INGAME"; name := "B" |});
                          (1, {| rating := "1700"; status := "NOT_OPEN"; name := "C" |})])).*2)
                ∖ list_to_set ["A"; "B"] : gset string) ∧
    observations db' = ([] ++ obs)%list ∧
    length obs = 2 ∧
    o_time <$> obs = (λ _, 0) <$> seq (2 + length new) (length obs) ∧
    Forall2 (λ p o, o_rating o = int_affinity (rating p) ∧
                    o_status o = status p ∧
                    {| p_id := o_playerid o; p_name := name p |} ∈ players db')
            (iter_players
               (Fics.frozenset [(0, {| rating := "1800"; status := "INGAME"; name := "B" |});
                                (1, {| rating := "1700"; status := "NOT_OPEN"; name := "C" |})]))
            obs.
Proof.
  apply (proj1 cycle_inserts_fresh_entities_and_all_observations key_order (quiet "")
    (Fics.frozenset [(0, {| rating := "1800"; status := "INGAME"; name := "B" |});
                     (1, {| rating := "1700"; status := "NOT_OPEN"; name := "C" |})])
    {| players := [{| p_id := 1; p_name := "A" |}; {| p_id := 2; p_name := "B" |}];
       players_seq := 2; observations := []; observations_seq := 0 |}).
  - unfold unique_names. vm_compute. repeat constructor.
    + intros H. apply elem_of_cons in H as [H|H]; [discriminate|]. by apply elem_of_nil in H.
    + intros H. by apply elem_of_nil in H.
  - reflexivity.
  - reflexivity.
Defined.

(** C3, as the specification words it, fails: the player insert is a
    plain [INSERT].  When another process has committed [Bob] after
    this pass read the known names, the insert of [Bob] raises
    [IntegrityError]; the transaction is rolled back, the exception
    leaves [loop], and no observation row is written, neither for
    [Bob] nor for [Alice]. *)
Lemma duplicate_entity_aborts_cycle :
  let ev := {| ev_io := io_of "1500:Alice 2100^Bob"; ev_concurrent := ["Bob"];
               ev_fault := λ _, None; ev_now := λ _, 0; ev_sleep := Ok tt |} in
  let run := loop [ev; quiet "1500:Alice 2100^Bob"] a0 in
  result_of run = Propagated IntegrityError ∧
  whos run = 1 ∧
  store (agent run) =
    {| players := [{| p_id := 1; p_name := "Bob" |}]; players_seq := 1;
       observations := []; observations_seq := 0 |}.
Proof. vm_compute. repeat split; reflexivity. Qed.

(** C3 (amended): when a name the pass found to be new is in the table
    by the time of the insert, the [executemany] of the player insert
    raises [IntegrityError] and the reconciliation is rolled back: the
    store is what the other process left, without any player or
    observation row of this pass, and the exception ends [loop]. *)
Theorem duplicate_entity_raises_and_rolls_back
    (O : IterOrder) (ev : env) (playersFics : gmap nat Player) (db : DB) (n : string) :
  (∀ k, ev_fault ev k = None) →
  n ∈ (list_to_set (name <$> iter_players playersFics)
       ∖ list_to_set (select_names db) : gset string) →
  n ∈ select_names (other_writer (ev_concurrent ev) db) →
  cycle ev playersFics db = (other_writer (ev_concurrent ev) db, Raise IntegrityError) ∧
  observations (other_writer (ev_concurrent ev) db) = observations db ∧
  ∀ (a : Agent) (evs : list env),
    store a = db →
    (Fics.who (fics a) (ev_io ev)).2 = Ok playersFics →
    result_of (loop (ev :: evs) a) = Propagated IntegrityError ∧
    whos (loop (ev :: evs) a) = 1 ∧
    store (agent (loop (ev :: evs) a)) = other_writer (ev_concurrent ev) db.
Proof.
  intros Hf Hnew Hn.
  assert (Hcy : cycle ev playersFics db
                = (other_writer (ev_concurrent ev) db, Raise IntegrityError)).
  { unfold cycle, connect, with_con, reconcile, sbind, query, interleave.
    rewrite !Hf. simpl. rewrite ?Hf. simpl.
    set (db1 := other_writer (ev_concurrent ev) db) in *.
    set (c1 := {| committed := db1; working := db1; ops := 2 |}).
    pose proof (executemany_committed (ev_fault ev) insert_player
      (iter_names (list_to_set (name <$> iter_players playersFics)
                   ∖ list_to_set (select_names db))) c1) as Hc.
    destruct (executemany_insert_player_conflict (ev_fault ev) Hf
      (iter_names (list_to_set (name <$> iter_players playersFics)
                   ∖ list_to_set (select_names db))) c1 n) as [c2 Hex];
      [by apply elem_of_iter_names|done|].
    rewrite Hex in *. simpl in *. by rewrite Hc. }
  split; [done|]. split; [apply other_writer_observations|].
  intros a evs <- Hwho. simpl.
  rewrite (iteration_polled _ _ _ Hwho), Hcy. simpl. done.
Qed.

(** [Alice] and [Bob] observed on an empty store while another process
    commits [Bob]. *)
Lemma duplicate_entity_raises_and_rolls_back_witness :
  let ev := {| ev_io := io_of "1500:Alice 2100^Bob"; ev_concurrent := ["Bob"];
               ev_fault := λ _, None; ev_now := λ _, 0; ev_sleep := Ok tt |} in
  let m := Fics.frozenset
             [(0, {| rating := "1500"; status := "NOT_OPEN"; name := "Alice" |});
              (1, {| rating := "2100"; status := "INGAME"; name := "Bob" |})] in
  cycle ev m Sql.empty = (other_writer ["Bob"] Sql.empty, Raise IntegrityError) ∧
  observations (other_writer ["Bob"] Sql.empty) = observations Sql.empty ∧
  ∀ (a : Agent) (evs : list env),
    store a = Sql.empty →
    (Fics.who (fics a) (ev_io ev)).2 = Ok m →
    result_of (loop (ev :: evs) a) = Propagated IntegrityError ∧
    whos (loop (ev :: evs) a) = 1 ∧
    store (agent (loop (ev :: evs) a)) = other_writer ["Bob"] Sql.empty.
Proof.
  apply (duplicate_entity_raises_and_rolls_back key_order
    {| ev_io := io_of "1500:Alice 2100^Bob"; ev_concurrent := ["Bob"];
       ev_fault := λ _, None; ev_now := λ _, 0; ev_sleep := Ok tt |}
    (Fics.frozenset
       [(0, {| rating := "1500"; status := "NOT_OPEN"; name := "Alice" |});
        (1, {| rating := "2100"; status := "INGAME"; name := "Bob" |})])
    Sql.empty "Bob").
  - reflexivity.
  - apply elem_of_difference. rewrite !elem_of_list_to_set. split.
    + vm_compute. by left.
    + vm_compute. intros H. by apply elem_of_nil in H.
  - vm_compute. by left.
Defined.







(** * Further properties of the session client *)

Section Grammar.

Import Re Text.

(** The first character that is no digit fixes how a token splits. *)
Lemma digit_run_unique r c n r' c' n' :
  r +:+ String c n = r' +:+ String c' n' →
  all_chars is_digit r = true → all_chars is_digit r' = true →
  non_digit c = true → non_digit c' = true →
  r = r' ∧ c = c' ∧ n = n'.
Proof.
  unfold non_digit. revert r'. induction r as [|a r IH]; intros [|a' r'] E Hr Hr' Hc Hc'.
  - by injection E as -> ->.
  - injection E as -> _. simpl in Hr'. apply andb_true_iff in Hr' as [Hd _].
    by rewrite Hd in Hc.
  - injection E as -> _. simpl in Hr. apply andb_true_iff in Hr as [Hd _].
    by rewrite Hd in Hc'.
  - rewrite !append_cons in E. injection E as -> E. simpl in Hr, Hr'.
    apply andb_true_iff in Hr as [_ Hr]. apply andb_true_iff in Hr' as [_ Hr'].
    destruct (IH _ E Hr Hr' Hc Hc') as (-> & -> & ->). done.
Qed.

End Grammar.

(** X1: [WHO_REGEX.fullmatch] accepts exactly the tokens that are a
    non-empty run of digits, one character that is no digit, and a
    non-empty rest without line feed; the three groups are these three
    parts, so the rating is always the whole leading run of digits. *)
Theorem who_regex_matches_iff (tok : string) (gs : list string) :
  Re.fullmatch Fics.WHO_REGEX tok = Some gs ↔
  ∃ r c n,
    gs = [r; String c ""; n] ∧ tok = r +:+ String c n ∧
    r ≠ "" ∧ Text.all_chars Text.is_digit r = true ∧ Text.non_digit c = true ∧
    n ≠ "" ∧ Text.all_chars Text.dot n = true.
Proof.
  split.
  - apply fullmatch_who_shape.
  - intros (r & c & n & -> & -> & ? & ? & ? & ? & ?). by apply fullmatch_who_complete.
Qed.

(** X2: tokens that cannot be a player are dropped and leave the result
    of the parse as it is without them: a token that does not start
    with a digit (an unrated or guest row, a header word), a token of
    digits only (a count), and digits followed by a single character. *)
Theorem tokens_outside_grammar_are_dropped :
  (∀ c rest, Text.is_digit c = false →
     Re.fullmatch Fics.WHO_REGEX (String c rest) = None) ∧
  (∀ s, Text.all_chars Text.is_digit s = true →
     Re.fullmatch Fics.WHO_REGEX s = None) ∧
  (∀ r c, Text.all_chars Text.is_digit r = true →
     Re.fullmatch Fics.WHO_REGEX (r +:+ String c "") = None) ∧
  (∀ tok before after, Re.fullmatch Fics.WHO_REGEX tok = None →
     Fics.parse (before ++ tok :: after) = Fics.parse (before ++ after)).
Proof.
  assert (Hdigits : ∀ s, Text.all_chars Text.is_digit s = true →
            Re.fullmatch Fics.WHO_REGEX s = None).
  { intros s Hs. destruct (Re.fullmatch _ s) as [gs|] eqn:E; [|done].
    apply fullmatch_who_shape in E as (r & c & n & _ & -> & _ & _ & Hc & _).
    rewrite all_chars_app in Hs. apply andb_true_iff in Hs as [_ Hs].
    simpl in Hs. apply andb_true_iff in Hs as [Hs _].
    unfold Text.non_digit in Hc. by rewrite Hs in Hc. }
  split; [|split; [done|split]].
  - intros c rest Hc. destruct (Re.fullmatch _ _) as [gs|] eqn:E; [|done].
    apply fullmatch_who_shape in E as (r & c' & n & _ & E & Hr & Hd & _).
    destruct r as [|a r]; [done|]. rewrite append_cons in E. injection E as -> _.
    simpl in Hd. apply andb_true_iff in Hd as [Hd _]. by rewrite Hd in Hc.
  - intros r c Hr. destruct (Text.is_digit c) eqn:Hc.
    + apply Hdigits. rewrite all_chars_app. simpl. by rewrite Hr, Hc.
    + destruct (Re.fullmatch _ _) as [gs|] eqn:E; [|done].
      apply fullmatch_who_shape in E as (r' & c' & n & _ & E & _ & Hr' & Hc' & Hn & _).
      apply digit_run_unique in E as (_ & _ & <-); try done.
      unfold Text.non_digit. by rewrite Hc.
  - intros tok before after H. unfold Fics.parse, Fics.matches.
    rewrite !omap_app. cbn -[Re.fullmatch]. by rewrite H.
Qed.

(** An unrated row, a count, and a rating whose name is cut off. *)
Lemma tokens_outside_grammar_are_dropped_witness :
  Re.fullmatch Fics.WHO_REGEX "----guest" = None ∧
  Re.fullmatch Fics.WHO_REGEX "1012" = None ∧
  Re.fullmatch Fics.WHO_REGEX ("1500" +:+ ":") = None ∧
  Fics.parse (["1500:Alice"] ++ "1012" :: ["2100^Bob"]) =
    Fics.parse (["1500:Alice"] ++ ["2100^Bob"]).
Proof.
  destruct tokens_outside_grammar_are_dropped as (H1 & H2 & H3 & H4).
  split; [|split; [|split]].
  - apply H1. reflexivity.
  - apply H2. reflexivity.
  - apply H3. reflexivity.
  - apply H4. apply H2. reflexivity.
Defined.

Section Records.

Import Re Text.

Lemma dict_get_Ok_elem d key v : dict_get d key = Ok v → (key, v) ∈ d.
Proof.
  induction d as [|[k v'] d IH]; simpl; [done|].
  case_decide as E.
  - intros [= ->]. subst. by left.
  - intros ?. right. by apply IH.
Qed.

Lemma dict_get_elem d key v :
  NoDup d.*1 → (key, v) ∈ d → dict_get d key = Ok v.
Proof.
  induction d as [|[k v'] d IH]; simpl; [by intros _ ?%elem_of_nil|].
  rewrite NoDup_cons. intros [Hk Hnd] [[= -> ->]|Hin]%elem_of_cons.
  - by rewrite decide_True.
  - rewrite decide_False; [by apply IH|].
    intros ->. apply Hk. by apply (list_elem_of_fmap_2 fst) in Hin.
Qed.

Lemma STATUSES_keys_NoDup : NoDup STATUSES.*1.
Proof. apply (bool_decide_unpack _). vm_compute. exact I. Qed.

Lemma Player_star_Ok g p :
  Player_star g = Ok p ↔
  ∃ c, g = [rating p; c; name p] ∧ (c, status p) ∈ STATUSES.
Proof.
  split.
  - destruct g as [|r [|c [|n [|? ?]]]]; try done. simpl. unfold Player_init.
    destruct (dict_get STATUSES c) as [st|] eqn:E; [|done].
    rewrite mbind_Ok. intros [= <-]. simpl. exists c. split; [done|].
    by apply dict_get_Ok_elem.
  - intros (c & -> & Hin). simpl. unfold Player_init.
    rewrite (dict_get_elem _ _ _ STATUSES_keys_NoDup Hin), mbind_Ok. by destruct p.
Qed.

Lemma map_iter_Ok_Forall2 {A B} (f : A → result B) xs ys :
  map_iter f xs = Ok ys ↔ Forall2 (λ x y, f x = Ok y) xs ys.
Proof.
  revert ys. induction xs as [|x xs IH]; intros ys; simpl.
  - split; [intros [= <-]; constructor|by intros ->%Forall2_nil_inv_l].
  - split.
    + destruct (f x) as [y|] eqn:E; [|done]. rewrite mbind_Ok.
      destruct (map_iter f xs) as [zs|]; [|done]. rewrite mbind_Ok. intros [= <-].
      constructor; [done|]. by apply IH.
    + intros (y & zs & -> & HF & ->)%Forall2_cons_inv_l. rewrite mbind_Ok.
      apply IH in HF as ->. by rewrite mbind_Ok.
Qed.

(** What a successful [who] went through. *)
Lemma who_Ok_inv tn i m :
  (Fics.who tn i).2 = Ok m →
  ∃ bytes text players,
    tn_sock tn ≠ Reset ∧
    Fics.io_reply i = Ok bytes ∧ decode_ascii bytes = Ok text ∧
    Fics.parse (split text) = Ok players ∧
    m = Fics.frozenset (Fics.alloc players).
Proof.
  unfold Fics.who, tn_write. destruct (tn_sock tn); simpl; try done.
  all: destruct (Fics.io_reply i) as [bytes|]; [|done]; rewrite mbind_Ok.
  all: destruct (decode_ascii bytes) as [text|] eqn:Hd; [|done]; rewrite mbind_Ok.
  all: destruct (Fics.io_prompt i); [|done]; rewrite mbind_Ok.
  all: destruct (Fics.parse (split text)) as [players|] eqn:Hp; [|done]; rewrite mbind_Ok.
  all: intros [= <-]; by exists bytes, text, players.
Qed.

End Records.

(** X3: the parse of a reply succeeds exactly when every matching token
    carries one of the six mapped status characters, and then it yields,
    in token order, one record per matching token: the token's digits
    as rating, the status that [STATUSES] maps the character to, the
    rest as name. *)
Theorem parse_succeeds_iff (playerStrings : list string) (players : list Player) :
  Fics.parse playerStrings = Ok players ↔
  Forall2 (λ g p, ∃ c, g = [rating p; c; name p] ∧ (c, status p) ∈ STATUSES)
          (Fics.matches playerStrings) players.
Proof.
  unfold Fics.parse. rewrite map_iter_Ok_Forall2.
  split; intros H; (eapply Forall2_impl; [exact H|]); intros g p; by rewrite Player_star_Ok.
Qed.

(** X4: every record of a set that [who] returns has a non-empty rating
    of digits only, one of the six status names, and a non-empty name
    without whitespace. *)
Theorem who_records_are_well_formed
    (tn : Telnet) (i : Fics.io) (m : gmap nat Player) (p : Player) :
  (Fics.who tn i).2 = Ok m →
  p ∈ (map_to_list m).*2 →
  rating p ≠ "" ∧
  Text.all_chars Text.is_digit (rating p) = true ∧
  status p ∈ ["INGAME"; "SIMUL_MATCH"; "NOT_OPEN"; "EXAMINING"; "INACTIVE"; "INTOURNAMENT"] ∧
  name p ≠ "" ∧
  Text.all_chars (λ c, negb (Text.is_space c)) (name p) = true.
Proof.
  intros (bytes & text & players & _ & _ & _ & Hparse & ->)%who_Ok_inv Hp.
  rewrite frozenset_alloc_records in Hp.
  unfold Fics.parse in Hparse. apply map_iter_Ok_Forall2 in Hparse.
  apply list_elem_of_lookup in Hp as [k Hk].
  destruct (Forall2_lookup_r _ _ _ _ _ Hparse Hk) as (g & Hg & HP).
  apply Player_star_Ok in HP as (c & -> & Hst).
  apply list_elem_of_lookup_2 in Hg. unfold Fics.matches in Hg.
  apply list_elem_of_omap in Hg as (tok & Htok & Hm).
  apply fullmatch_who_shape in Hm as (r & c' & n & [= -> -> ->] & -> & Hr & Hd & _ & Hn & _).
  apply (split_from_tokens [] text) in Htok; [|constructor].
  rewrite all_chars_app in Htok. apply andb_true_iff in Htok as [_ Htok].
  simpl in Htok. apply andb_true_iff in Htok as [_ Htok].
  repeat split; try done.
  apply (list_elem_of_fmap_2 snd) in Hst. exact Hst.
Qed.

Lemma who_records_are_well_formed_witness :
  let p := {| rating := "1923"; status := "INGAME"; name := "GM_Foo" |} in
  rating p ≠ "" ∧
  Text.all_chars Text.is_digit (rating p) = true ∧
  status p ∈ ["INGAME"; "SIMUL_MATCH"; "NOT_OPEN"; "EXAMINING"; "INACTIVE"; "INTOURNAMENT"] ∧
  name p ≠ "" ∧
  Text.all_chars (λ c, negb (Text.is_space c)) (name p) = true.
Proof.
  apply (who_records_are_well_formed tn0 (io_of "abc 1923^GM_Foo 1923")
           (Fics.frozenset [(0, {| rating := "1923"; status := "INGAME"; name := "GM_Foo" |})])).
  - vm_compute. reflexivity.
  - vm_compute. by left.
Defined.

(** X5: a reply with a byte outside ASCII makes [who] raise
    [UnicodeDecodeError], whatever else it holds; the pass writes
    nothing to the store and [loop] ends with that exception. *)
Theorem non_ascii_reply_raises
    (O : IterOrder) (ev : env) (evs : list env) (a : Agent) (bytes : string) :
  tn_sock (fics a) = Connected →
  Fics.io_reply (ev_io ev) = Ok bytes →
  Text.all_chars (λ c, Text.code c <? 128)%nat bytes = false →
  (Fics.who (fics a) (ev_io ev)).2 = Raise UnicodeDecodeError ∧
  result_of (loop (ev :: evs) a) = Propagated UnicodeDecodeError ∧
  store (agent (loop (ev :: evs) a)) = store a.
Proof.
  intros Hs Hr Hb.
  assert (H : (Fics.who (fics a) (ev_io ev)).2 = Raise UnicodeDecodeError).
  { unfold Fics.who, tn_write. rewrite Hs, Hr. simpl.
    unfold Text.decode_ascii. by rewrite Hb. }
  split; [done|]. by rewrite (loop_poll_raises _ _ _ _ H).
Qed.

Lemma non_ascii_reply_raises_witness :
  let bytes := "1500:J" +:+ String (ascii_of_nat 233) "r" in
  (Fics.who (fics a0) (ev_io (quiet bytes))).2 = Raise UnicodeDecodeError ∧
  result_of (loop [quiet bytes; quiet "1500:Alice"] a0) = Propagated UnicodeDecodeError ∧
  store (agent (loop [quiet bytes; quiet "1500:Alice"] a0)) = store a0.
Proof.
  apply (non_ascii_reply_raises key_order
           (quiet ("1500:J" +:+ String (ascii_of_nat 233) "r")) [quiet "1500:Alice"] a0
           ("1500:J" +:+ String (ascii_of_nat 233) "r")); reflexivity.
Defined.

(** * Further properties of the reconciliation loop *)

Section Closure.

Context {O : IterOrder}.

(** A property of stores that both inserts keep. *)
Variable Q : DB → Prop.
Hypothesis Q_insert_player :
  ∀ n db db', Q db → insert_player n db = Ok db' → Q db'.
Hypothesis Q_insert_observation :
  ∀ now p db db', Q db → insert_observation now p db = Ok db' → Q db'.

Lemma other_writer_closed ns db : Q db → Q (other_writer ns db).
Proof.
  unfold other_writer. revert db. induction ns as [|n ns IH]; intros db HQ; [done|].
  simpl. apply IH. destruct (insert_player n db) eqn:E; [|done]. by eapply Q_insert_player.
Qed.

Lemma execute_closed fault stmt c :
  (∀ db db', Q db → stmt db = Ok db' → Q db') →
  Q (committed c) → Q (working c) →
  Q (committed (execute fault stmt c).1) ∧ Q (working (execute fault stmt c).1).
Proof.
  intros Hstmt Hc Hw. unfold execute. destruct (fault (ops c)); [done|].
  destruct (stmt (working c)) eqn:E; [|done]. simpl. split; [done|]. by eapply Hstmt.
Qed.

Lemma executemany_closed {A} fault (stmt : A → DB → result DB) params c :
  (∀ a db db', Q db → stmt a db = Ok db' → Q db') →
  Q (committed c) → Q (working c) →
  Q (committed (executemany fault stmt params c).1) ∧
  Q (working (executemany fault stmt params c).1).
Proof.
  intros Hstmt. revert c. induction params as [|a params IH]; intros c Hc Hw; [done|].
  simpl. unfold sbind.
  destruct (execute_closed fault (stmt a) c (Hstmt a) Hc Hw) as [Hc1 Hw1].
  destruct (execute fault (stmt a) c) as [c1 [[]|e]]; simpl in *; [|done].
  by apply IH.
Qed.

Lemma executemany_at_closed {A} fault clock (stmt : nat → A → DB → result DB) params c :
  (∀ t a db db', Q db → stmt t a db = Ok db' → Q db') →
  Q (committed c) → Q (working c) →
  Q (committed (executemany_at fault clock stmt params c).1) ∧
  Q (working (executemany_at fault clock stmt params c).1).
Proof.
  intros Hstmt. revert c. induction params as [|a params IH]; intros c Hc Hw; [done|].
  simpl. unfold sbind.
  destruct (execute_closed fault (stmt (clock (ops c)) a) c (Hstmt _ a) Hc Hw) as [Hc1 Hw1].
  destruct (execute fault (stmt (clock (ops c)) a) c) as [c1 [[]|e]]; simpl in *; [|done].
  by apply IH.
Qed.

Lemma cycle_closed (ev : env) (m : gmap nat Player) (db : DB) :
  Q db → Q (cycle ev m db).1.
Proof.
  intros HQ.
  unfold cycle, connect, with_con, reconcile, sbind, query, interleave. simpl.
  destruct (ev_fault ev 0); simpl; [done|].
  destruct (ev_fault ev 1); simpl; [done|].
  pose proof (other_writer_closed (ev_concurrent ev) db HQ) as H1.
  set (db1 := other_writer (ev_concurrent ev) db) in *.
  set (c1 := {| committed := db1; working := db1; ops := 2 |}).
  destruct (executemany_closed (ev_fault ev) insert_player
    (iter_names (list_to_set (name <$> iter_players m) ∖ list_to_set (select_names db))) c1)
    as [Hc2 Hw2]; [by eauto|done|done|].
  destruct (executemany _ insert_player _ c1) as [c2 [[]|e2]]; simpl in *; [|done].
  destruct (executemany_at_closed (ev_fault ev) (ev_now ev) insert_observation
    (iter_players m) c2) as [Hc3 Hw3]; [by eauto|done|done|].
  destruct (executemany_at _ _ _ (iter_players m) c2) as [c3 [[]|e3]]; simpl in *; [|done].
  unfold commit. by destruct (ev_fault ev (ops c3)).
Qed.

Lemma iteration_store (ev : env) (a : Agent) :
  store (iteration ev a).1 = store a ∨
  ∃ m, (Fics.who (fics a) (ev_io ev)).2 = Ok m ∧
       store (iteration ev a).1 = (cycle ev m (store a)).1.
Proof.
  unfold iteration. destruct (Fics.who _ _) as [tn [m|e]]; simpl; [|by left].
  right. exists m. split; [done|]. by destruct (cycle ev m (store a)).
Qed.

Lemma iteration_closed (ev : env) (a : Agent) :
  Q (store a) → Q (store (iteration ev a).1).
Proof.
  intros HQ. destruct (iteration_store ev a) as [->|(m & _ & ->)]; [done|].
  by apply cycle_closed.
Qed.

Lemma close_store (a : Agent) : store (close a).1 = store a.
Proof. unfold close. by destruct (Fics.disconnect _). Qed.

Lemma loop_closed (evs : list env) (a : Agent) :
  Q (store a) → Q (store (agent (loop evs a))).
Proof.
  revert a. induction evs as [|ev evs IH]; intros a HQ; [done|].
  simpl. pose proof (iteration_closed ev a HQ) as H1.
  destruct (iteration ev a) as [a1 [[]|e]]; simpl in *.
  - by apply IH.
  - destruct (is_cancel e); [|done].
    pose proof (close_store a1) as H2.
    destruct (close a1) as [a2 [[]|e']]; simpl in *; by rewrite H2.
Qed.

End Closure.

Section StoreInvariants.

Lemma foldl_add_observation_inv (P : DB → Prop) now p pids db :
  (∀ d pid, P d → pid ∈ pids → P (add_observation now p d pid)) →
  P db → P (foldl (add_observation now p) db pids).
Proof.
  revert db. induction pids as [|pid pids IH]; intros db Hstep HP; [done|].
  simpl. apply IH.
  - intros d pid' Hd Hin. apply Hstep; [done|by right].
  - apply Hstep; [done|by left].
Qed.

Lemma grows_insert_player db0 n db db' :
  grows db0 db → insert_player n db = Ok db' → grows db0 db'.
Proof.
  unfold insert_player, grows. case_decide; [done|]. intros [Hp Ho] [= <-]. simpl.
  split; [by apply prefix_app_r|done].
Qed.

Lemma grows_insert_observation db0 now p db db' :
  grows db0 db → insert_observation now p db = Ok db' → grows db0 db'.
Proof.
  unfold insert_observation. intros Hg [= <-].
  apply (foldl_add_observation_inv (grows db0)); [|done].
  intros d pid [Hp Ho] _. split; [done|]. simpl. by apply prefix_app_r.
Qed.

Lemma select_ids_elem n db pid :
  pid ∈ select_ids n db → pid ∈ p_id <$> players db.
Proof.
  unfold select_ids. intros (r & -> & Hr)%list_elem_of_fmap.
  apply list_elem_of_filter in Hr as [_ Hr]. by apply list_elem_of_fmap_2.
Qed.

Lemma keyed_insert_player n db db' :
  keyed db → insert_player n db = Ok db' → keyed db'.
Proof.
  unfold insert_player. case_decide as Hn; [done|].
  intros (Hu & Hi & Hs & Hoi & Hos & Hfk) [= <-].
  unfold keyed, unique_names, select_names in *. simpl.
  rewrite !fmap_app. simpl. repeat split.
  - apply NoDup_app. split; [done|]. split; [|apply NoDup_singleton].
    intros x Hx ->%list_elem_of_singleton. done.
  - apply NoDup_app. split; [done|]. split; [|apply NoDup_singleton].
    intros x (r & -> & Hr)%list_elem_of_fmap ?%list_elem_of_singleton.
    rewrite Forall_forall in Hs. apply Hs in Hr. lia.
  - apply Forall_app. split; [|by repeat constructor].
    eapply Forall_impl; [exact Hs|]. simpl. intros; lia.
  - done.
  - done.
  - eapply Forall_impl; [exact Hfk|]. simpl. intros o Ho. apply elem_of_app. by left.
Qed.

Lemma keyed_insert_observation now p db db' :
  keyed db → insert_observation now p db = Ok db' → keyed db'.
Proof.
  unfold insert_observation. intros Hk [= <-].
  apply (foldl_add_observation_inv
           (λ d, keyed d ∧ players d = players db)); [|done].
  intros d pid [(Hu & Hi & Hs & Hoi & Hos & Hfk) Hp] Hpid.
  split; [|done]. apply select_ids_elem in Hpid. rewrite <-Hp in Hpid.
  unfold keyed, unique_names, select_names in *. simpl.
  rewrite !fmap_app. simpl. repeat split; try done.
  - apply NoDup_app. split; [done|]. split; [|apply NoDup_singleton].
    intros x (o & -> & Ho)%list_elem_of_fmap ?%list_elem_of_singleton.
    rewrite Forall_forall in Hos. apply Hos in Ho. lia.
  - apply Forall_app. split; [|by repeat constructor].
    eapply Forall_impl; [exact Hos|]. simpl. intros; lia.
  - apply Forall_app. split; [done|]. by repeat constructor.
Qed.

End StoreInvariants.

(** X6: whatever the server sends, whatever fails and whatever another
    process commits, a run of [loop] never changes or removes a stored
    row: the player and observation tables it started with are the
    beginnings of the tables it ends with. *)
Theorem loop_only_appends (O : IterOrder) (evs : list env) (a : Agent) :
  grows (store a) (store (agent (loop evs a))).
Proof.
  apply (loop_closed (grows (store a))).
  - apply grows_insert_player.
  - apply grows_insert_observation.
  - split; reflexivity.
Qed.

(** X7: a run of [loop] keeps the keys of the schema, whatever happens
    during it: player names stay distinct, ids stay distinct and below
    their counters, and every observation row refers to the id of a
    stored player, although SQLite does not enforce the foreign key. *)
Theorem loop_keeps_keys (O : IterOrder) (evs : list env) (a : Agent) :
  keyed (store a) → keyed (store (agent (loop evs a))).
Proof.
  apply (loop_closed keyed).
  - apply keyed_insert_player.
  - apply keyed_insert_observation.
Qed.

(** Two passes from an empty store, the second one disturbed by
    another writer. *)
Lemma loop_keeps_keys_witness :
  keyed (store (agent (loop
    [quiet "1500:Alice 2100^Bob";
     {| ev_io := io_of "1500.Alice 1700:Carol"; ev_concurrent := ["Dave"];
        ev_fault := λ _, None; ev_now := λ _, 1; ev_sleep := Ok tt |}] a0))).
Proof.
  apply (loop_keeps_keys key_order).
  unfold keyed, unique_names. vm_compute. repeat split; constructor.
Defined.

Section Session.

Context {O : IterOrder}.



Lemma iteration_cont (ev : env) (a : Agent) : cont (iteration ev a).1 = cont a.
Proof.
  unfold iteration. destruct (Fics.who _ _) as [tn [m|e]]; simpl; [|done].
  by destruct (cycle ev m (store a)).
Qed.


End Session.





(** X11: a reply without any matching token (an empty list of players,
    or only header words and counts) makes [who] return the empty set,
    and the pass then writes nothing: the store is as before whether
    or not a store operation fails, and without a failure the pass
    goes on to its sleep. *)
Theorem empty_poll_writes_nothing
    (O : IterOrder) (ev : env) (a : Agent) (bytes text prompt : string) :
  tn_sock (fics a) = Connected →
  Fics.io_reply (ev_io ev) = Ok bytes →
  Text.decode_ascii bytes = Ok text →
  Fics.io_prompt (ev_io ev) = Ok prompt →
  Fics.matches (Text.split text) = [] →
  ev_concurrent ev = [] →
  (Fics.who (fics a) (ev_io ev)).2 = Ok ∅ ∧
  store (iteration ev a).1 = store a ∧
  ((∀ k, ev_fault ev k = None) → (iteration ev a).2 = ev_sleep ev).
Proof.
  intros Hs Hr Hd Hp Hm Hc.
  assert (Hwho : (Fics.who (fics a) (ev_io ev)).2 = Ok ∅).
  { rewrite (who_connected _ _ _ _ Hs Hr Hp), Hd, mbind_Ok.
    unfold Fics.parse. by rewrite Hm. }
  assert (Hplayers : iter_players ∅ = []).
  { apply Permutation_nil_r. by rewrite iter_players_perm, map_to_list_empty. }
  assert (Hnames : iter_names ∅ = []).
  { apply Permutation_nil_r. by rewrite iter_names_perm, elements_empty. }
  assert (Hcycle : (cycle ev ∅ (store a)).1 = store a ∧
            ((∀ k, ev_fault ev k = None) → (cycle ev ∅ (store a)).2 = Ok tt)).
  { unfold cycle, connect, with_con, reconcile, sbind, query, interleave.
    assert (HS : ∀ X : gset string, ∅ ∖ X = ∅).
    { intros X. apply leibniz_equiv, elem_of_equiv_empty.
      intros x [Hx _]%elem_of_difference. by apply not_elem_of_empty in Hx. }
    rewrite Hplayers, Hc. simpl.
    destruct (ev_fault ev 0) eqn:E0; simpl; [split; [done|]; intros H; by rewrite H in E0|].
    destruct (ev_fault ev 1) eqn:E1; simpl; [split; [done|]; intros H; by rewrite H in E1|].
    rewrite HS, Hnames. simpl. unfold commit. simpl.
    destruct (ev_fault ev 2) eqn:E2; simpl; [split; [done|]; intros H; by rewrite H in E2|].
    done. }
  split; [done|]. rewrite (iteration_polled _ _ _ Hwho). simpl.
  destruct Hcycle as [-> Hok]. split; [done|]. intros Hf. by rewrite (Hok Hf).
Qed.

(** The reply of a server on which nobody is logged in. *)
Lemma empty_poll_writes_nothing_witness :
  let ev := quiet "0 players displayed" in
  (Fics.who (fics a0) (ev_io ev)).2 = Ok ∅ ∧
  store (iteration ev a0).1 = store a0 ∧
  ((∀ k, ev_fault ev k = None) → (iteration ev a0).2 = ev_sleep ev).
Proof.
  apply (empty_poll_writes_nothing key_order (quiet "0 players displayed") a0
           "0 players displayed" "0 players displayed" "fics%"); reflexivity.
Defined.

(** X12: a player insert that succeeds makes the name selectable under
    exactly the new id, leaves the rows selected for every other name
    as they were, and makes a second insert of the same name fail with
    [IntegrityError]; an insert fails exactly when the name is stored. *)
Theorem inserted_player_is_selected (n : string) (db db' : DB) :
  insert_player n db = Ok db' →
  (n ∉ select_names db) ∧
  select_ids n db' = [S (players_seq db)] ∧
  (∀ n', n' ≠ n → select_ids n' db' = select_ids n' db) ∧
  insert_player n db' = Raise IntegrityError ∧
  (∀ n', insert_player n' db = Raise IntegrityError ↔ n' ∈ select_names db).
Proof.
  unfold insert_player at 1. case_decide as Hn; [done|]. intros [= <-].
  split; [done|]. split; [|split; [|split]].
  - unfold select_ids. simpl. rewrite filter_app, fmap_app.
    change (p_id <$> filter (λ r, p_name r = n) (players db)) with (select_ids n db).
    rewrite (select_ids_absent _ _ Hn). rewrite filter_cons, decide_True by done. done.
  - intros n' Hne. unfold select_ids. simpl. rewrite filter_app, fmap_app.
    rewrite filter_cons, decide_False by (simpl; congruence). by rewrite app_nil_r.
  - unfold insert_player. rewrite decide_True; [done|].
    unfold select_names. simpl. rewrite fmap_app. apply elem_of_app. right. by left.
  - intros n'. unfold insert_player. case_decide; split; done.
Qed.

Lemma inserted_player_is_selected_witness :
  let db := {| players := [{| p_id := 4; p_name := "Alice" |}]; players_seq := 7;
               observations := []; observations_seq := 0 |} in
  let db' := {| players := [{| p_id := 4; p_name := "Alice" |};
                            {| p_id := 8; p_name := "Bob" |}]; players_seq := 8;
                observations := []; observations_seq := 0 |} in
  ("Bob" ∉ select_names db) ∧
  select_ids "Bob" db' = [S (players_seq db)] ∧
  (∀ n', n' ≠ "Bob" → select_ids n' db' = select_ids n' db) ∧
  insert_player "Bob" db' = Raise IntegrityError ∧
  (∀ n', insert_player n' db = Raise IntegrityError ↔ n' ∈ select_names db).
Proof.
  apply (inserted_player_is_selected "Bob"
    {| players := [{| p_id := 4; p_name := "Alice" |}]; players_seq := 7;
       observations := []; observations_seq := 0 |}
    {| players := [{| p_id := 4; p_name := "Alice" |};
                   {| p_id := 8; p_name := "Bob" |}]; players_seq := 8;
       observations := []; observations_seq := 0 |}).
  vm_compute. reflexivity.
Defined.

(** * Further properties: the login and the printed form of a record *)




(** The two facts about a returned record that its printed form
    relies on. *)
Lemma who_records_are_well_formed_aux
    (tn : Telnet) (i : Fics.io) (m : gmap nat Player) (p : Player) :
  (Fics.who tn i).2 = Ok m →
  p ∈ (map_to_list m).*2 →
  Text.all_chars Text.is_digit (rating p) = true ∧
  status p ∈ ["INGAME"; "SIMUL_MATCH"; "NOT_OPEN"; "EXAMINING"; "INACTIVE"; "INTOURNAMENT"].
Proof.
  intros (bytes & text & players & _ & _ & _ & Hparse & ->)%who_Ok_inv Hp.
  rewrite frozenset_alloc_records in Hp.
  unfold Fics.parse in Hparse. apply map_iter_Ok_Forall2 in Hparse.
  apply list_elem_of_lookup in Hp as [k Hk].
  destruct (Forall2_lookup_r _ _ _ _ _ Hparse Hk) as (g & Hg & HP).
  apply Player_star_Ok in HP as (c & -> & Hst).
  apply list_elem_of_lookup_2 in Hg. unfold Fics.matches in Hg.
  apply list_elem_of_omap in Hg as (tok & Htok & Hm).
  apply fullmatch_who_shape in Hm as (r & c' & n & [= Hrt _ _] & _ & _ & Hd & _).
  split; [by rewrite Hrt|]. apply (list_elem_of_fmap_2 snd) in Hst. exact Hst.
Qed.

Section Printed.

Import Text.

(** A run of characters of a class, ended by one outside it, splits a
    string in one way only. *)
Lemma run_unique (P : ascii → bool) r c n r' c' n' :
  r +:+ String c n = r' +:+ String c' n' →
  all_chars P r = true → all_chars P r' = true →
  P c = false → P c' = false →
  r = r' ∧ c = c' ∧ n = n'.
Proof.
  revert r'. induction r as [|a r IH]; intros [|a' r'] E Hr Hr' Hc Hc'.
  - by injection E as -> ->.
  - injection E as -> _. simpl in Hr'. apply andb_true_iff in Hr' as [Hd _]. congruence.
  - injection E as -> _. simpl in Hr. apply andb_true_iff in Hr as [Hd _]. congruence.
  - rewrite !append_cons in E. injection E as -> E. simpl in Hr, Hr'.
    apply andb_true_iff in Hr as [_ Hr]. apply andb_true_iff in Hr' as [_ Hr'].
    destruct (IH _ E Hr Hr' Hc Hc') as (-> & -> & ->). done.
Qed.

Lemma append_char_inj s s' c : s +:+ String c "" = s' +:+ String c "" → s = s'.
Proof.
  revert s'. induction s as [|a s IH]; intros [|a' s'] E; [done|..].
  - injection E as _ E. by destruct s'.
  - injection E as _ E. by destruct s.
  - rewrite !append_cons in E. injection E as -> E. by rewrite (IH _ E).
Qed.

Lemma status_names_have_no_comma st :
  st ∈ ["INGAME"; "SIMUL_MATCH"; "NOT_OPEN"; "EXAMINING"; "INACTIVE"; "INTOURNAMENT"] →
  all_chars not_comma st = true.
Proof.
  intros H. repeat (apply elem_of_cons in H as [->|H]; [reflexivity|]).
  by apply elem_of_nil in H.
Qed.

End Printed.

(** X14: on the records that [who] returns, the printed form
    [(rating, status, name)] names the record: two such records, of the
    same poll or of different ones, that print alike are equal.  (The
    rating holds digits only, the status no comma, so the two
    separators are found where they were put.) *)
Theorem printed_form_names_the_record
    (tn tn' : Telnet) (i i' : Fics.io) (m m' : gmap nat Player) (p q : Player) :
  (Fics.who tn i).2 = Ok m → p ∈ (map_to_list m).*2 →
  (Fics.who tn' i').2 = Ok m' → q ∈ (map_to_list m').*2 →
  Player_repr p = Player_repr q →
  p = q.
Proof.
  intros Hm Hp Hm' Hq.
  destruct (who_records_are_well_formed_aux tn i m p Hm Hp) as (Hr & Hs).
  destruct (who_records_are_well_formed_aux tn' i' m' q Hm' Hq) as (Hr' & Hs').
  unfold Player_repr. destruct p as [r s n], q as [r' s' n']. simpl in *.
  intros E. injection E as E.
  apply (run_unique Text.is_digit) in E as (-> & _ & E); [|done..].
  injection E as E.
  apply (run_unique not_comma) in E as (-> & _ & E);
    [|by apply status_names_have_no_comma..|done|done].
  injection E as E. by apply append_char_inj in E as ->.
Qed.

Lemma printed_form_names_the_record_witness :
  {| rating := "1923"; status := "INGAME"; name := "GM_Foo" |} =
  {| rating := "1923"; status := "INGAME"; name := "GM_Foo" |}.
Proof.
  apply (printed_form_names_the_record tn0 tn0
           (io_of "abc 1923^GM_Foo 1923") (io_of "1923^GM_Foo 17:x")
           (Fics.frozenset [(0, {| rating := "1923"; status := "INGAME"; name := "GM_Foo" |})])
           (Fics.frozenset [(0, {| rating := "1923"; status := "INGAME"; name := "GM_Foo" |});
                            (1, {| rating := "17"; status := "NOT_OPEN"; name := "x" |})])).
  - vm_compute. reflexivity.
  - vm_compute. by left.
  - vm_compute. reflexivity.
  - vm_compute. right. by left.
  - reflexivity.
Defined.
